(** * Higher-order function combinators of [09-functions-n-closures-tasks.js]

    A shallow embedding of the closure factories of the module and of the
    fragment of JavaScript they run on, followed by the properties of the
    factories.

    Conventions of the embedding.
    - A JavaScript value is a term of [value].  Objects (arrays, functions,
      errors) carry the address that gives them their identity next to a
      snapshot of their contents.
    - A number is a double: the binary64 floats of the kernel, with their
      rounding, their infinities, their zeros and their NaN.
    - The two conversions between numbers and strings belong to the host
      and the development is parametric in them.
    - Code that calls user-supplied functions runs in a state and
      exception monad.  The state holds what the user functions can read
      and write (the world) and the list of the calls made to them so far,
      each with its outcome.
    - A user-supplied function acts on the world.  [memoize], whose
      closure keeps a cache from one call to the next, is also modelled
      for functions that call the memoized function back during their own
      call. *)

From Stdlib Require Import ZArith List String Ascii Bool Lia Floats.
From stdpp Require Import base gmap list strings pretty.
Import ListNotations.

Set Warnings "-register-all".

Local Open Scope string_scope.
Local Open Scope Z_scope.

(** ** Numbers *)

Definition number : Type := float.

Definition NaN : number := PrimFloat.nan.

Definition NegZero : number := PrimFloat.neg_zero.

(** The number an integer literal denotes: the double nearest to the
    integer, ties to even. *)
Definition Int (z : Z) : number :=
  SF2Prim (binary_normalize prec emax z 0 false).

(** [a * b] and [a + b], rounded as the doubles are. *)
Definition num_mul (a b : number) : number := PrimFloat.mul a b.

Definition num_add (a b : number) : number := PrimFloat.add a b.

(** Equality of numbers as [===] sees it: NaN differs from itself and the
    two zeros are equal. *)
Definition num_eqb (a b : number) : bool := PrimFloat.eqb a b.

(** Equality of numbers as [SameValueZero] sees it: [===], and NaN equal
    to itself. *)
Definition num_same_value_zero (a b : number) : bool :=
  (PrimFloat.is_nan a && PrimFloat.is_nan b) || num_eqb a b.

(** The integers below 2^53 in magnitude are doubles, and their sums and
    products in that range are exact.  A double [x] that is such an
    integer [z], not zero, has the sign of [z] and a mantissa of 53 bits. *)
Definition represents (x : spec_float) (z : Z) : Prop :=
  exists m e,
    x = S754_finite (z <? 0) m e
    /\ digits2_pos m = 53%positive
    /\ -52 <= e <= 0
    /\ Z.pos m * 2 ^ (e + 52) = Z.abs z * 2 ^ 52.

(** [Number.isSafeInteger], of an integer. *)
Definition safe_integer (z : Z) : Prop := Z.abs z < 2 ^ 53.


(** A mantissa on its way through the rounding of [SpecFloat], nothing
    shifted out of it so far. *)
Definition exact_record (m : Z) : shr_record :=
  {| shr_m := m; shr_r := false; shr_s := false |}.

(** ** Values *)

Record funref : Type := mkFunref {
  fn_addr : nat;
  fn_name : string;
  fn_text : string
}.

Inductive value : Type :=
| VUndefined
| VNull
| VBool (b : bool)
| VNum (n : number)
| VStr (s : string)
| VArr (addr : nat) (items : list value)
| VFun (f : funref)
| VErr (addr : nat) (name : string) (message : string).

Definition typeof (v : value) : string :=
  match v with
  | VUndefined => "undefined"
  | VNull => "object"
  | VBool _ => "boolean"
  | VNum _ => "number"
  | VStr _ => "string"
  | VArr _ _ => "object"
  | VFun _ => "function"
  | VErr _ _ _ => "object"
  end.

(** [ToBoolean]: the zeros and NaN are the numbers that count as false. *)
Definition truthy (v : value) : bool :=
  match v with
  | VUndefined | VNull => false
  | VBool b => b
  | VNum n => negb (PrimFloat.is_nan n || num_eqb n (Int 0))
  | VStr s => negb (String.eqb s "")
  | _ => true
  end.

Definition is_nullish (v : value) : bool :=
  match v with
  | VUndefined | VNull => true
  | _ => false
  end.

Definition error_to_string (name message : string) : string :=
  if String.eqb name "" then message
  else if String.eqb message "" then name
  else name ++ ": " ++ message.

(** [===]. Objects are equal when they are the same object. *)
Definition strict_eq (a b : value) : bool :=
  match a, b with
  | VUndefined, VUndefined => true
  | VNull, VNull => true
  | VBool x, VBool y => Bool.eqb x y
  | VNum x, VNum y => num_eqb x y
  | VStr x, VStr y => String.eqb x y
  | VArr x _, VArr y _ => Nat.eqb x y
  | VFun f, VFun g => Nat.eqb (fn_addr f) (fn_addr g)
  | VErr x _ _, VErr y _ _ => Nat.eqb x y
  | _, _ => false
  end.

(** [SameValueZero], the equality of the keys of a [Map]. *)
Definition same_value_zero (a b : value) : bool :=
  match a, b with
  | VNum x, VNum y => num_same_value_zero x y
  | _, _ => strict_eq a b
  end.

(** ** Coercions and arithmetic *)

(** The conversions between strings and numbers ([StringToNumber] and
    [Number::toString]) belong to the host; the development is parametric
    in them. *)
Class Host : Type := {
  string_to_number : string -> number;
  number_to_string : number -> string
}.

Section Language.

Context `{Host}.

(** [ToString].  An array is rendered as [join(",")] renders it: the
    elements separated by commas, [undefined] and [null] as the empty
    string. *)
Fixpoint to_string (v : value) : string :=
  match v with
  | VUndefined => "undefined"
  | VNull => "null"
  | VBool true => "true"
  | VBool false => "false"
  | VNum n => number_to_string n
  | VStr s => s
  | VArr _ items =>
      (fix join_items (l : list value) : string :=
         match l with
         | [] => ""
         | [x] => if is_nullish x then "" else to_string x
         | x :: rest =>
             (if is_nullish x then "" else to_string x) ++ "," ++ join_items rest
         end) items
  | VFun f => fn_text f
  | VErr _ name message => error_to_string name message
  end.

(** [Array.prototype.join(sep)]. *)
Fixpoint join (sep : string) (l : list value) : string :=
  match l with
  | [] => ""
  | [x] => if is_nullish x then "" else to_string x
  | x :: rest => (if is_nullish x then "" else to_string x) ++ sep ++ join sep rest
  end.

(** [ToPrimitive]: an object of this fragment has no [valueOf] of its own
    and is converted through [toString]. *)
Definition to_primitive (v : value) : value :=
  match v with
  | VArr _ _ | VFun _ | VErr _ _ _ => VStr (to_string v)
  | _ => v
  end.

(** [ToNumber]. *)
Definition to_number (v : value) : number :=
  match to_primitive v with
  | VUndefined => NaN
  | VNull => Int 0
  | VBool true => Int 1
  | VBool false => Int 0
  | VNum n => n
  | VStr s => string_to_number s
  | _ => NaN
  end.

Definition is_string (v : value) : bool :=
  match v with
  | VStr _ => true
  | _ => false
  end.

(** The binary [+]: concatenation as soon as one operand is, or converts
    to, a string. *)
Definition js_add (a b : value) : value :=
  let pa := to_primitive a in
  let pb := to_primitive b in
  if is_string pa || is_string pb
  then VStr (to_string pa ++ to_string pb)
  else VNum (num_add (to_number pa) (to_number pb)).

(** The binary [*]. *)
Definition js_mul (a b : value) : value :=
  VNum (num_mul (to_number a) (to_number b)).

(** The unary [+]. *)
Definition js_plus (a : value) : value := VNum (to_number a).

(** ** Arrays *)

(** [arr[i]]: reading past the end gives [undefined]. *)
Definition array_get (arr : list value) (i : nat) : value :=
  nth i arr VUndefined.

(** [arr[i] = v]: writing past the end extends the array, the skipped
    positions read as [undefined]. *)
Definition array_set (arr : list value) (i : nat) (v : value) : list value :=
  if (i <? length arr)%nat
  then <[i := v]> arr
  else arr ++ repeat VUndefined (i - length arr) ++ [v].

(** The index at which [slice] starts or ends: a negative index counts
    from the end, and the result is clamped to the array. *)
Definition relative_index (len : nat) (i : Z) : nat :=
  if i <? 0 then Z.to_nat (Z.max (Z.of_nat len + i) 0)
  else Nat.min (Z.to_nat i) len.

(** [arr.slice(from, to)]. *)
Definition slice (arr : list value) (from to : Z) : list value :=
  let k := relative_index (length arr) from in
  let final := relative_index (length arr) to in
  firstn (final - k) (skipn k arr).

(** ** getPolynom *)

(** What [getPolynom] returns: [null] or a closure, given by what it
    computes from its list of arguments. *)
Inductive polynom : Type :=
| PolyNull
| PolyFun (f : list value -> value).

Definition getPolynom (arg : list value) : polynom :=
  if (length arg =? 1)%nat then
    let arg := array_set arg 1 (VNum (Int 0)) in
    let arg := array_set arg 2 (VNum (Int 0)) in
    PolyFun (fun _ => array_get arg 0)
  else if (length arg =? 2)%nat then
    let arg := array_set arg 2 (VNum (Int 0)) in
    PolyFun (fun params =>
      let x := array_get params 0 in
      js_add (js_mul (array_get arg 0) x) (array_get arg 1))
  else if (length arg =? 3)%nat then
    PolyFun (fun params =>
      let x := array_get params 0 in
      if strict_eq (array_get arg 0) VUndefined then VNull
      else js_add
             (js_add (js_mul (js_mul (array_get arg 0) x) x)
                     (js_mul (array_get arg 1) x))
             (array_get arg 2))
  else PolyNull.


(** Two results of [getPolynom] that cannot be told apart: both [null],
    or two closures that agree on every argument list. *)
Definition same_polynom (p q : polynom) : Prop :=
  match p, q with
  | PolyNull, PolyNull => True
  | PolyFun f, PolyFun g => forall params, f params = g params
  | _, _ => False
  end.

(** The coefficients after the third are ignored. *)
Definition ignores_extra_coefficients (arg : list value) : Prop :=
  same_polynom (getPolynom arg) (getPolynom (firstn 3 arg)).

End Language.

(** ** Computations with state and exceptions *)

(** How the evaluation of a piece of code ends: normally with a value, or
    abruptly with a thrown value. *)
Inductive completion (A : Type) : Type :=
| Normal (a : A)
| Throw (e : value).

Arguments Normal {A} a.
Arguments Throw {A} e.

Definition M (S A : Type) : Type := S -> completion A * S.

Definition ret {S A : Type} (a : A) : M S A :=
  fun s => (Normal a, s).

Definition throw {S A : Type} (e : value) : M S A :=
  fun s => (Throw e, s).

Definition bind {S A B : Type} (c : M S A) (k : A -> M S B) : M S B :=
  fun s =>
    match c s with
    | (Normal a, s') => k a s'
    | (Throw e, s') => (Throw e, s')
    end.

(** [try { c } catch (e) { handler e }]: the handler starts in the state
    in which the exception was thrown. *)
Definition try_catch {S A : Type} (c : M S A) (handler : value -> M S A) : M S A :=
  fun s =>
    match c s with
    | (Normal a, s') => (Normal a, s')
    | (Throw e, s') => handler e s'
    end.

Declare Scope js_scope.
Delimit Scope js_scope with js.

Notation "x <- c ;; k" := (bind c (fun x => k))
  (at level 100, c at next level, right associativity) : js_scope.
Notation "c ;; k" := (bind c (fun _ => k))
  (at level 100, right associativity) : js_scope.

(** The variables a closure or a call keeps for itself are the first
    component of the state. *)
Definition get_local {L E : Type} : M (L * E) L :=
  fun s => (Normal (fst s), s).

Definition set_local {L E : Type} (l : L) : M (L * E) unit :=
  fun s => (Normal tt, (l, snd s)).

Definition lift {L E A : Type} (c : M E A) : M (L * E) A :=
  fun s =>
    match c (snd s) with
    | (r, e') => (r, (fst s, e'))
    end.

(** Runs a call that declares local variables, initialised to [init]. *)
Definition with_local {L E A : Type} (init : L) (c : M (L * E) A) : M E A :=
  fun e =>
    match c (init, e) with
    | (r, (_, e')) => (r, e')
    end.

(** ** User-supplied functions *)

(** One call of a user-supplied function, as recorded when it ends. *)
Record call : Type := mkCall {
  callee : funref;
  call_args : list value;
  outcome : completion value
}.

Section Effects.

Context `{Host}.
Context {W : Type}.

(** The state user-supplied functions act on, and the calls made to them
    so far, oldest first. *)
Record ext : Type := mkExt {
  world : W;
  trace : list call
}.

(** A user-supplied function: the function object and what a call does to
    the world.  Such a function makes no call of the closures of this
    module during its own call; for [memoize], where such calls matter,
    see [reentrant] below. *)
Record jsfun : Type := mkJsfun {
  fn_ref : funref;
  fn_body : list value -> W -> completion value * W
}.

(** [f(...args)] *)
Definition invoke (f : jsfun) (args : list value) : M ext value :=
  fun s =>
    match fn_body f args (world s) with
    | (r, w') =>
        (r, {| world := w'; trace := trace s ++ [mkCall (fn_ref f) args r] |})
    end.

(** A closure with private variables of type [L]: their initial values
    and the code of a call. *)
Record closure (L : Type) : Type := mkClosure {
  initial : L;
  code : list value -> M (L * ext) value
}.

Arguments initial {L} c.
Arguments code {L} c args.

Local Open Scope js_scope.

(** ** memoize *)

(** A [Map]: the entries in insertion order, keys compared with
    [SameValueZero]. *)
Definition cache : Type := list (value * value).

Fixpoint map_has (m : cache) (k : value) : bool :=
  match m with
  | [] => false
  | (k', _) :: rest => same_value_zero k' k || map_has rest k
  end.

Fixpoint map_get (m : cache) (k : value) : value :=
  match m with
  | [] => VUndefined
  | (k', v) :: rest => if same_value_zero k' k then v else map_get rest k
  end.

(** [Map.prototype.set] stores the negative zero as the positive zero. *)
Definition normalize_key (k : value) : value :=
  match k with
  | VNum n => if num_eqb n (Int 0) then VNum (Int 0) else k
  | _ => k
  end.

Fixpoint map_set (m : cache) (k v : value) : cache :=
  match m with
  | [] => [(normalize_key k, v)]
  | (k', v') :: rest =>
      if same_value_zero k' k then (k', v) :: rest
      else (k', v') :: map_set rest k v
  end.

Definition memoize_foo (func : jsfun) (x : value) : M (cache * ext) value :=
  cache <- get_local;;
  if map_has cache x then
    ret (map_get cache x)
  else
    res <- lift (invoke func [x]);;
    cache <- get_local;;
    set_local (map_set cache x res);;
    ret res.

Definition memoize (func : jsfun) : closure cache :=
  {| initial := [];
     code := fun args => memoize_foo func (array_get args 0) |}.

(** ** memoize, when [func] can call the memoized function *)

(** [memoize_foo] above takes a function that acts on the world only.  A
    JavaScript function can also hold the memoized function and call it
    during its own call.  What such a function does during one call is a
    script: it ends, or it reads and writes the world and goes on, or it
    calls the memoized function and goes on with how that call ended. *)
Inductive script : Type :=
| Finish (r : completion value)
| Act (write : W -> W) (next : W -> script)
| CallBack (args : list value) (next : completion value -> script).

Record reentrant : Type := mkReentrant {
  re_ref : funref;
  re_body : list value -> script
}.

(** A function that acts on the world only, as a script. *)
Definition reentrant_of (func : jsfun) : reentrant :=
  {| re_ref := fn_ref func;
     re_body := fun args =>
       Act (fun w => snd (fn_body func args w))
           (fun w => Finish (fst (fn_body func args w))) |}.

(** Runs a script, [self] being the memoized function. *)
Fixpoint run_script
    (self : list value -> cache * ext -> option (completion value * (cache * ext)))
    (p : script) (st : cache * ext)
  : option (completion value * (cache * ext)) :=
  match p with
  | Finish r => Some (r, st)
  | Act write next =>
      run_script self (next (world (snd st)))
        (fst st, {| world := write (world (snd st)); trace := trace (snd st) |})
  | CallBack args next =>
      match self args st with
      | Some (r, st') => run_script self (next r) st'
      | None => None
      end
  end.

(** [foo], the memoized function, for such a [func].  The calls of [foo]
    and [func] can nest without end; [depth] bounds the nesting and the
    result is [None] when the bound is reached. *)
Fixpoint memoize_reentrant (depth : nat) (func : reentrant) (args : list value)
    (st : cache * ext) : option (completion value * (cache * ext)) :=
  match depth with
  | O => None
  | S depth' =>
      let x := array_get args 0 in
      if map_has (fst st) x then
        Some (Normal (map_get (fst st) x), st)
      else
        match run_script (memoize_reentrant depth' func) (re_body func [x]) st with
        | Some (Normal res, (cache, e)) =>
            Some (Normal res,
                  (map_set cache x res,
                   {| world := world e;
                      trace := trace e ++ [mkCall (re_ref func) [x] (Normal res)] |}))
        | Some (Throw ex, (cache, e)) =>
            Some (Throw ex,
                  (cache,
                   {| world := world e;
                      trace := trace e ++ [mkCall (re_ref func) [x] (Throw ex)] |}))
        | None => None
        end
  end.

(** Calls the memoized function on each argument list in turn. *)
Fixpoint run_reentrant (depth : nat) (func : reentrant)
    (calls : list (list value)) (st : cache * ext)
  : option (list (completion value) * (cache * ext)) :=
  match calls with
  | [] => Some ([], st)
  | args :: rest =>
      match memoize_reentrant depth func args st with
      | Some (r, st') =>
          match run_reentrant depth func rest st' with
          | Some (rs, st'') => Some (r :: rs, st'')
          | None => None
          end
      | None => None
      end
  end.

(** ** retry *)

Definition retry (func : jsfun) (attempts : value) : M ext value :=
  with_local (VNum (Int 0))
    (try_catch
       (lift (invoke func []);;
        count <- get_local;;
        set_local (js_add (VNum (Int 1)) count);;
        ret (VFun (fn_ref func)))
       (fun e =>
          try_catch
            (count <- get_local;;
             if strict_eq count attempts then ret attempts
             else
               lift (invoke func []);;
               count <- get_local;;
               set_local (js_add (VNum (Int 1)) count);;
               ret (VFun (fn_ref func)))
            (fun e1 =>
               count <- get_local;;
               if strict_eq count attempts then ret attempts
               else
                 lift (invoke func []);;
                 count <- get_local;;
                 set_local (js_add (VNum (Int 1)) count);;
                 ret (VFun (fn_ref func))))).

(** ** logger *)

(** The error the engine throws when a property of [undefined] or [null]
    is read or when something that is not a function is called.  Its
    message depends on the engine and its identity is not observed by
    this module: neither is modelled. *)
Definition type_error : value := VErr 0 "TypeError" "".

Definition dquote : string := String "034"%char EmptyString.

(** The callback of [x[0].map]. *)
Definition quote_item (item : value) : value :=
  if String.eqb (typeof item) "string"
  then VStr (dquote ++ to_string item ++ dquote)
  else item.

Definition is_array (v : value) : bool :=
  match v with
  | VArr _ _ => true
  | _ => false
  end.

(** [v.map(callback)] for a callback that cannot fail: only an array has
    the method, every other value of this fragment makes the call a
    [TypeError]. *)
Definition call_map {S : Type} (v : value) (callback : value -> value)
  : M S (list value) :=
  match v with
  | VArr _ items => ret (map callback items)
  | _ => throw type_error
  end.

Definition logger_wrapper (func logFunc : jsfun) (args1 : list value) : M ext value :=
  let arr := args1 in
  if (length args1 =? 1)%nat then
    invoke logFunc
      [VStr (fn_name (fn_ref func) ++ "(" ++ join "," arr ++ ") starts")];;
    invoke logFunc
      [VStr (fn_name (fn_ref func) ++ "(" ++ join "," arr ++ ") ends")];;
    invoke func args1
  else
    let x := slice arr 0 (Z.of_nat (length arr) - 1) in
    xMap <- call_map (array_get x 0) quote_item;;
    invoke logFunc
      [VStr (fn_name (fn_ref func) ++ "([" ++ join "," xMap ++ "],"
             ++ to_string (js_plus (array_get arr (length arr - 1))) ++ ") starts")];;
    x2 <- invoke func args1;;
    invoke logFunc
      [VStr (fn_name (fn_ref func) ++ "([" ++ join "," xMap ++ "],"
             ++ to_string (array_get arr (length arr - 1)) ++ ") ends")];;
    ret x2.

Definition logger (func logFunc : jsfun) : list value -> M ext value :=
  logger_wrapper func logFunc.

(** ** partialUsingArguments *)

Definition partialUsingArguments (fn : jsfun) (args1 : list value)
  : list value -> M ext value :=
  fun args =>
    let str := join "" args1 ++ join "" args in
    ret (VStr str).

End Effects.

(** ** getIdGeneratorFunction *)

Section Generators.

Context `{Host}.

(** The variables of one call of [getIdGeneratorFunction], shared by the
    closure it returns. *)
Record gen_env : Type := mkGenEnv {
  startFrom : value;
  count : value;
  flag : value
}.

(** The environments of the generators created so far are kept in a store,
    by the address of their closure. *)

(** One run of the body of [wrapper] in its environment. *)
Definition wrapper_body (env : gen_env) : value * gen_env :=
  let count := if truthy (flag env) then js_add (VNum (Int 1)) (count env)
               else count env in
  let flag := VBool true in
  (js_add (startFrom env) count,
   {| startFrom := startFrom env; count := count; flag := flag |}).

(** A call of the closure at address [r]; [None] when there is no closure
    at that address. *)
Definition id_wrapper (r : nat) (h : gmap nat gen_env) : option (value * gmap nat gen_env) :=
  match h !! r with
  | Some env =>
      let (v, env') := wrapper_body env in
      Some (v, <[r := env']> h)
  | None => None
  end.

Definition getIdGeneratorFunction (startFrom : value) (h : gmap nat gen_env)
  : nat * gmap nat gen_env :=
  let r := fresh (dom h) in
  (r, <[r := {| startFrom := startFrom;
                count := VNum (Int 0);
                flag := VUndefined |}]> h).

(** A client of the generators: it creates generators and calls the ones
    it has, in any order. *)
Inductive gen_op : Type :=
| Create (startFrom : value)
| Next (r : nat).

Inductive gen_result : Type :=
| Created (r : nat)
| Returned (r : nat) (v : value).

Fixpoint run_ops (ops : list gen_op) (h : gmap nat gen_env)
  : option (list gen_result * gmap nat gen_env) :=
  match ops with
  | [] => Some ([], h)
  | Create s :: rest =>
      let (r, h') := getIdGeneratorFunction s h in
      match run_ops rest h' with
      | Some (results, h'') => Some (Created r :: results, h'')
      | None => None
      end
  | Next r :: rest =>
      match id_wrapper r h with
      | Some (v, h') =>
          match run_ops rest h' with
          | Some (results, h'') => Some (Returned r v :: results, h'')
          | None => None
          end
      | None => None
      end
  end.

(** The client calls only closures it has: those of the store it starts
    from, whose addresses are [known], and those it created before the
    call. *)
Fixpoint well_scoped (ops : list gen_op) (known : gset nat) : bool :=
  match ops with
  | [] => true
  | Create _ :: rest => well_scoped rest ({[fresh known]} ∪ known)
  | Next r :: rest => bool_decide (r ∈ known) && well_scoped rest known
  end.

(** The values the generator at [r] returned, oldest first. *)
Fixpoint returned_by (r : nat) (results : list gen_result) : list value :=
  match results with
  | [] => []
  | Returned r' v :: rest =>
      if Nat.eqb r' r then v :: returned_by r rest else returned_by r rest
  | Created _ :: rest => returned_by r rest
  end.

(** The private counter after [n] increments: it starts at [0] and each
    increment replaces it by [1 + count]. *)
Fixpoint counter (n : nat) : number :=
  match n with
  | O => Int 0
  | S m => num_add (Int 1) (counter m)
  end.

(** The environment of a generator started from [start], once its closure
    has been called [n] times. *)
Definition gen_env_after (start : value) (n : nat) : gen_env :=
  match n with
  | O => {| startFrom := start; count := VNum (Int 0); flag := VUndefined |}
  | S m => {| startFrom := start; count := VNum (counter m);
              flag := VBool true |}
  end.

(** Each value of the list is the value before it plus one. *)
Definition counts_by_one (values : list value) : Prop :=
  forall n v v',
    values !! n = Some v -> values !! S n = Some v' ->
    v' = js_add v (VNum (Int 1)).

End Generators.

Arguments jsfun W : clear implicits.
Arguments script W : clear implicits.
Arguments reentrant W : clear implicits.
Arguments ext W : clear implicits.
Arguments closure W L : clear implicits.
Arguments initial {W L} c.
Arguments code {W L} c args.

(** ** Clients *)

(** Calls a closure on each argument list in turn, starting from the given
    private variables, and collects how each call ended. *)
Fixpoint run_calls {W L : Type} (c : closure W L) (calls : list (list value))
  (s : L * ext W) : list (completion value) * (L * ext W) :=
  match calls with
  | [] => ([], s)
  | args :: rest =>
      match code c args s with
      | (r, s') =>
          match run_calls c rest s' with
          | (rs, s'') => (r :: rs, s'')
          end
      end
  end.

(** The state after [func] was called with [args] in the state [s] and
    ended with [r], leaving the world [w]. *)
Definition after_call {W : Type} (func : jsfun W) (s : ext W)
  (args : list value) (r : completion value) (w : W) : ext W :=
  {| world := w; trace := trace s ++ [mkCall (fn_ref func) args r] |}.

(** The three ways a call of the memoized function can go, from the cache
    [c] and the state [s], on the argument [x]: a hit, a miss that stores
    the result, a miss on which [func] fails. *)
Inductive memoize_step {W : Type} (func : jsfun W) (c : cache) (s : ext W)
  (x : value) : completion value -> cache -> ext W -> Prop :=
| step_hit :
    map_has c x = true ->
    memoize_step func c s x (Normal (map_get c x)) c s
| step_stored (r : value) (w : W) :
    map_has c x = false ->
    fn_body func [x] (world s) = (Normal r, w) ->
    memoize_step func c s x (Normal r) (map_set c x r)
      (after_call func s [x] (Normal r) w)
| step_failed (e : value) (w : W) :
    map_has c x = false ->
    fn_body func [x] (world s) = (Throw e, w) ->
    memoize_step func c s x (Throw e) c (after_call func s [x] (Throw e) w).




Definition returned (c : call) : bool :=
  match outcome c with
  | Normal _ => true
  | Throw _ => false
  end.

(** The entries the memoized function makes for the calls of [func] of a
    trace: one for each call that returned, in the order of the calls. *)
Definition stored (calls : list call) : cache :=
  flat_map (fun cl =>
              match call_args cl, outcome cl with
              | [x], Normal v => [(normalize_key x, v)]
              | _, _ => []
              end) calls.

(** The trace only grows from the state [st] to the state [st']. *)
Definition trace_grows {W : Type} (st st' : cache * ext W) : Prop :=
  exists new, trace (snd st') = (trace (snd st) ++ new)%list.


(** No two entries of the cache have keys that are SameValueZero. *)
Definition distinct_keys (c : cache) : Prop :=
  forall (i j : nat) ki vi kj vj,
    c !! i = Some (ki, vi) -> c !! j = Some (kj, vj) ->
    same_value_zero ki kj = true -> i = j.

(** ** Sample hosts and functions *)

Definition is_digit (c : ascii) : bool :=
  let n := nat_of_ascii c in
  ((48 <=? n) && (n <=? 57))%nat.

Fixpoint digits_value (s : string) (acc : Z) : option Z :=
  match s with
  | EmptyString => Some acc
  | String c rest =>
      if is_digit c
      then digits_value rest (10 * acc + Z.of_nat (nat_of_ascii c - 48))
      else None
  end.

(** A host for the examples.  It converts the plain decimal integer
    literals and the empty string as JavaScript does; on every other
    string it answers [NaN], which JavaScript does not on strings such as
    [" 12 "], ["1.5"] or ["0x10"].  It prints NaN, the zeros, the
    infinities and the integers below 2^53 in magnitude as JavaScript
    does; of any other number it prints the integer part in full, which
    is not what JavaScript prints.  No example converts such a string or
    prints such a number, and the properties that are not examples hold
    of every host. *)
Definition integer_literal (s : string) : number :=
  match s with
  | EmptyString => Int 0
  | String "-"%char (String c rest) =>
      match digits_value (String c rest) 0 with
      | Some 0 => NegZero
      | Some z => Int (- z)
      | None => NaN
      end
  | String "+"%char (String c rest) =>
      match digits_value (String c rest) 0 with
      | Some z => Int z
      | None => NaN
      end
  | _ =>
      match digits_value s 0 with
      | Some z => Int z
      | None => NaN
      end
  end.

Definition integer_digits (x : number) : string :=
  match Prim2SF x with
  | S754_nan => "NaN"
  | S754_zero _ => "0"
  | S754_infinity false => "Infinity"
  | S754_infinity true => "-Infinity"
  | S754_finite sign m e =>
      (if sign then "-" else "")
      ++ pretty (if e <? 0 then Z.pos m / 2 ^ (- e) else Z.pos m * 2 ^ e)
  end.

Definition integer_host : Host :=
  {| string_to_number := integer_literal;
     number_to_string := integer_digits |}.

(** [() => 2] *)
Definition always_two : jsfun unit :=
  {| fn_ref := mkFunref 1 "" "() => 2";
     fn_body := fun _ w => (Normal (VNum (Int 2)), w) |}.

Definition test_error : value := VErr 7 "Error" "test".

(** [() => { throw new Error('test'); }] *)
Definition always_fails : jsfun unit :=
  {| fn_ref := mkFunref 2 "" "() => { throw new Error('test'); }";
     fn_body := fun _ w => (Throw test_error, w) |}.

(** The function of the example in the documentation of [retry], the
    world being the variable [attempt]:
    [() => { if (++attempt % 2) throw new Error('test'); else return attempt; }] *)
Definition odd_fails : jsfun Z :=
  {| fn_ref := mkFunref 3 "" "() => { if (++attempt % 2) throw new Error('test'); else return attempt; }";
     fn_body := fun _ attempt =>
       let attempt := attempt + 1 in
       if attempt mod 2 =? 0 then (Normal (VNum (Int attempt)), attempt)
       else (Throw test_error, attempt) |}.

(** [function sum2(x1, x2) { return x1 + x2; }] *)
Definition sum2 : jsfun unit :=
  {| fn_ref := mkFunref 4 "sum2" "function sum2(x1, x2) { return x1 + x2; }";
     fn_body := fun args w =>
       (Normal (@js_add integer_host (array_get args 0) (array_get args 1)), w) |}.

(** [function inc(x) { return x + 1; }], and a log sink that appends the
    line it is given to the world, a list of lines. *)
Definition inc : jsfun (list string) :=
  {| fn_ref := mkFunref 5 "inc" "function inc(x) { return x + 1; }";
     fn_body := fun args w =>
       (Normal (@js_add integer_host (array_get args 0) (VNum (Int 1))), w) |}.

Definition sink : jsfun (list string) :=
  {| fn_ref := mkFunref 6 "sink" "function sink(line) { lines.push(line); }";
     fn_body := fun args w =>
       (Normal VUndefined,
        (w ++ [@to_string integer_host (array_get args 0)])%list) |}.

(** A function that counts its calls in the world and returns the count;
    it fails on the calls made while the count is below [failures]. *)
Definition counting (failures : nat) : jsfun nat :=
  {| fn_ref := mkFunref 8 "counting" "function counting(x) { calls += 1; if (calls <= failures) throw new Error('test'); return calls; }";
     fn_body := fun _ calls =>
       if (calls <? failures)%nat then (Throw test_error, S calls)
       else (Normal (VNum (Int (Z.of_nat (S calls)))), S calls) |}.

Definition start {W : Type} (w : W) : ext W := {| world := w; trace := [] |}.


(** [function nested_fails(x) { if (inside) return 2; inside = true; m(x); throw new Error('test'); }] *)
Definition nested_fails : reentrant bool :=
  {| re_ref := mkFunref 13 "nested_fails" "function nested_fails(x) { if (inside) return 2; inside = true; m(x); throw new Error('test'); }";
     re_body := fun args =>
       Act (fun _ => true) (fun inside =>
         if inside then Finish (Normal (VNum (Int 2)))
         else CallBack [array_get args 0] (fun r =>
                match r with
                | Normal _ => Finish (Throw test_error)
                | Throw e => Finish (Throw e)
                end)) |}.

(** ** getComposition *)

(** Anything that can be called: a user-supplied function, through
    [invoke], or a closure of this module that keeps no variable of its
    own. *)
Definition callable (W : Type) : Type := list value -> M (ext W) value.

Definition getComposition {W : Type} (f g : callable W) : callable W :=
  fun args =>
    let x := array_get args 0 in
    (y <- g [x];; f [y])%js.

(** [function kind(x) { return typeof x; }] *)
Definition kind : jsfun unit :=
  {| fn_ref := mkFunref 9 "kind" "function kind(x) { return typeof x; }";
     fn_body := fun args w => (Normal (VStr (typeof (array_get args 0))), w) |}.

(** [function failing() { throw new Error('test'); }], in the world of
    [inc] and [sink]. *)
Definition failing : jsfun (list string) :=
  {| fn_ref := mkFunref 11 "failing" "function failing() { throw new Error('test'); }";
     fn_body := fun _ w => (Throw test_error, w) |}.

(** The function of the documentation of [partialUsingArguments]:
    [function(x1, x2, x3, x4) { return x1 + x2 + x3 + x4; }] *)
Definition sum4 `{Host} : jsfun unit :=
  {| fn_ref := mkFunref 10 "fn" "function(x1,x2,x3,x4) { return  x1 + x2 + x3 + x4; }";
     fn_body := fun args w =>
       (Normal (js_add (js_add (js_add (array_get args 0) (array_get args 1))
                               (array_get args 2))
                       (array_get args 3)), w) |}.

(** [func] is a pure function: a call returns [f] of the arguments and
    leaves the world as it is. *)
Definition computes {W : Type} (func : jsfun W) (f : list value -> value) : Prop :=
  forall args w, fn_body func args w = (Normal (f args), w).

(** * Properties *)

Local Open Scope list_scope.

(** Unfolds the operations of the monad in the goal. *)
Ltac run_js :=
  unfold bind, ret, throw, try_catch, get_local, set_local, lift, with_local,
    invoke;
  cbn [fst snd world trace].

(** ** Numbers *)

(** When two doubles are equal for [==]: two zeros, two infinities of the
    same sign, or the same finite number. *)
Lemma SFeqb_true (x y : spec_float) :
  SFeqb x y = true <->
  match x, y with
  | S754_zero _, S754_zero _ => True
  | S754_infinity s, S754_infinity s' => s = s'
  | S754_finite s m e, S754_finite s' m' e' => s = s' /\ m = m' /\ e = e'
  | _, _ => False
  end.
Proof.
  unfold SFeqb, SFcompare.
  destruct x as [s|s| |s m e], y as [s'|s'| |s' m' e'];
    try (split; [discriminate | contradiction]);
    try (split; [reflexivity | intros _; reflexivity]);
    try (destruct s; split; (discriminate || contradiction));
    try (destruct s'; split; (discriminate || contradiction)).
  - destruct s, s'; split; try reflexivity; try discriminate.
  - destruct s, s'; try (split; [discriminate | intros [E _]; discriminate]);
      destruct (Z.compare_spec e e') as [-> | Hlt | Hgt];
      try (split; [discriminate | intros (_ & _ & E); lia]);
      rewrite Pos.compare_cont_spec; cbn [Pos.switch_Eq];
      destruct (Pos.compare_spec m m') as [-> | Hm | Hm]; cbn [CompOpp];
      try (split; [discriminate | intros (_ & E & _); lia]);
      split; auto.
Qed.

Lemma num_eqb_sym (a b : number) : num_eqb a b = num_eqb b a.
Proof.
  unfold num_eqb. rewrite !FloatAxioms.eqb_spec.
  destruct (SFeqb (Prim2SF a) (Prim2SF b)) eqn:E1,
           (SFeqb (Prim2SF b) (Prim2SF a)) eqn:E2; try reflexivity.
  - apply SFeqb_true in E1. apply not_true_iff_false in E2. exfalso. apply E2.
    apply SFeqb_true.
    destruct (Prim2SF a), (Prim2SF b); try contradiction; try exact I;
      [now symmetry | destruct E1 as (-> & -> & ->); auto].
  - apply SFeqb_true in E2. apply not_true_iff_false in E1. exfalso. apply E1.
    apply SFeqb_true.
    destruct (Prim2SF a), (Prim2SF b); try contradiction; try exact I;
      [now symmetry | destruct E2 as (-> & -> & ->); auto].
Qed.

Lemma num_eqb_trans (a b c : number) :
  num_eqb a b = true -> num_eqb b c = true -> num_eqb a c = true.
Proof.
  unfold num_eqb. rewrite !FloatAxioms.eqb_spec, !SFeqb_true.
  destruct (Prim2SF a), (Prim2SF b), (Prim2SF c); try contradiction; auto;
    [congruence | intros (-> & -> & ->) (-> & -> & ->); auto].
Qed.

(** A NaN is equal to nothing for [==]. *)
Lemma num_eqb_nan (a b : number) :
  PrimFloat.is_nan a = true -> num_eqb a b = false /\ num_eqb b a = false.
Proof.
  unfold PrimFloat.is_nan, num_eqb. rewrite !FloatAxioms.eqb_spec.
  intros E. apply negb_true_iff, not_true_iff_false in E.
  rewrite SFeqb_true in E.
  split; apply not_true_iff_false; rewrite SFeqb_true; intros E';
    apply E; destruct (Prim2SF a), (Prim2SF b); try contradiction; auto.
Qed.

(** *** The integers below 2^53 *)

Lemma digits2_log2 (p : positive) :
  Z.pos (digits2_pos p) = Z.log2 (Z.pos p) + 1.
Proof.
  assert (Hsize : forall q, digits2_pos q = Pos.size q)
    by (induction q; simpl; congruence).
  rewrite Hsize. destruct p; simpl; lia.
Qed.

Lemma iter_xO_mul (p k : positive) :
  Z.pos (Pos.iter xO p k) = Z.pos p * 2 ^ Z.pos k.
Proof.
  change (Pos.iter xO p k) with (shift_pos k p).
  rewrite shift_pos_correct, Z.pow_pos_fold. lia.
Qed.

Lemma iter_shr_1 (k : positive) :
  forall p, SpecFloat.iter_pos shr_1 k (exact_record (Z.pos (Pos.iter xO p k))) = exact_record (Z.pos p).
Proof.
  induction k as [k IH | k IH |]; intros p; cbn [SpecFloat.iter_pos Pos.iter].
  - change (shr_1 (exact_record (Z.pos (Pos.iter xO (Pos.iter xO p k) k)~0)))
      with (exact_record (Z.pos (Pos.iter xO (Pos.iter xO p k) k))).
    now rewrite !IH.
  - now rewrite !IH.
  - reflexivity.
Qed.

Lemma binary_round_aux_exact (sx : bool) (m' : positive) (n e : Z) :
  0 <= n ->
  digits2_pos m' = 53%positive ->
  emin <= e + n <= emax - prec ->
  binary_round_aux prec emax sx (Z.pos m' * 2 ^ n) e loc_Exact
  = S754_finite sx m' (e + n).
Proof.
  intros Hn Hdigits Hrange.
  assert (Hlog : Z.log2 (Z.pos m') = 52)
    by (pose proof (digits2_log2 m') as E; rewrite Hdigits in E; lia).
  assert (Hsecond : shr_fexp prec emax (Z.pos m') (e + n) loc_Exact
                    = (exact_record (Z.pos m'), e + n)).
  { unfold shr_fexp, Zdigits2. rewrite Hdigits.
    replace (fexp prec emax (53 + (e + n)) - (e + n)) with 0
      by (unfold fexp; change prec with 53 in *; lia).
    reflexivity. }
  assert (Hlast : (e + n <=? emax - prec) = true) by (apply Z.leb_le; lia).
  unfold binary_round_aux.
  destruct n as [|k|k]; [| | lia].
  - rewrite Z.add_0_r in *. change (2 ^ 0) with 1. rewrite Z.mul_1_r.
    rewrite Hsecond. cbn [shr_m exact_record loc_of_shr_record round_nearest_even].
    rewrite Hsecond. cbn [shr_m exact_record]. now rewrite Hlast.
  - rewrite <- iter_xO_mul.
    assert (Hfirst : shr_fexp prec emax (Z.pos (Pos.iter xO m' k)) e loc_Exact
                     = (exact_record (Z.pos m'), e + Z.pos k)).
    { assert (Hd : Z.pos (digits2_pos (Pos.iter xO m' k)) = Z.pos k + 53)
        by (rewrite digits2_log2, iter_xO_mul, Z.log2_mul_pow2, Hlog; lia).
      unfold shr_fexp, Zdigits2. rewrite Hd.
      replace (fexp prec emax (Z.pos k + 53 + e) - e) with (Z.pos k)
        by (unfold fexp; change prec with 53 in *; lia).
      change (shr_record_of_loc (Z.pos (Pos.iter xO m' k)) loc_Exact)
        with (exact_record (Z.pos (Pos.iter xO m' k))).
      cbn [shr]. now rewrite iter_shr_1. }
    rewrite Hfirst. cbn [shr_m exact_record loc_of_shr_record round_nearest_even].
    rewrite Hsecond. cbn [shr_m exact_record]. now rewrite Hlast.
Qed.

Lemma binary_round_exact (sx : bool) (m m' : positive) (e e' lo : Z) :
  digits2_pos m' = 53%positive ->
  emin <= e' <= emax - prec ->
  lo <= e -> lo <= e' ->
  Z.pos m * 2 ^ (e - lo) = Z.pos m' * 2 ^ (e' - lo) ->
  binary_round prec emax sx m e = S754_finite sx m' e'.
Proof.
  intros Hdigits Hrange He He' Hvalue.
  assert (Hlog : Z.log2 (Z.pos m') = 52)
    by (pose proof (digits2_log2 m') as E; rewrite Hdigits in E; lia).
  assert (Hd : Z.pos (digits2_pos m) + e = 53 + e').
  { rewrite digits2_log2. apply (f_equal Z.log2) in Hvalue.
    rewrite !Z.log2_mul_pow2 in Hvalue by lia. lia. }
  assert (Hpow : 0 < 2 ^ (e - lo)) by (apply Z.pow_pos_nonneg; lia).
  unfold binary_round.
  replace (fexp prec emax (Z.pos (digits2_pos m) + e)) with e'
    by (rewrite Hd; unfold fexp; change prec with 53 in *; lia).
  unfold shl_align.
  destruct (e' - e) as [|k|k] eqn:Hdiff.
  - assert (e' = e) by lia. subst e'.
    apply Z.mul_reg_r in Hvalue; [| lia]. injection Hvalue as ->.
    pose proof (binary_round_aux_exact sx m' 0 e) as Haux.
    rewrite Z.add_0_r in Haux. change (2 ^ 0) with 1 in Haux.
    rewrite Z.mul_1_r in Haux. apply Haux; [lia | exact Hdigits | lia].
  - assert (Hm : Z.pos m = Z.pos m' * 2 ^ Z.pos k).
    { replace (e' - lo) with (Z.pos k + (e - lo)) in Hvalue by lia.
      rewrite Z.pow_add_r, Z.mul_assoc in Hvalue by lia.
      now apply Z.mul_reg_r in Hvalue; [| lia]. }
    rewrite Hm. replace e' with (e + Z.pos k) by lia.
    apply binary_round_aux_exact; [lia | exact Hdigits | lia].
  - assert (Hm : Z.pos (Pos.iter xO m k) = Z.pos m').
    { rewrite iter_xO_mul.
      replace (e - lo) with (Z.pos k + (e' - lo)) in Hvalue by lia.
      rewrite Z.pow_add_r, Z.mul_assoc in Hvalue by lia.
      apply Z.mul_reg_r in Hvalue; [exact Hvalue |].
      assert (0 < 2 ^ (e' - lo)) by (apply Z.pow_pos_nonneg; lia). lia. }
    injection Hm as ->.
    pose proof (binary_round_aux_exact sx m' 0 e') as Haux.
    rewrite Z.add_0_r in Haux. change (2 ^ 0) with 1 in Haux.
    rewrite Z.mul_1_r in Haux. apply Haux; [lia | exact Hdigits | lia].
Qed.

Lemma Int_zero : Prim2SF (Int 0) = S754_zero false.
Proof. reflexivity. Qed.

Lemma Int_finite (z : Z) :
  z <> 0 -> Z.abs z < 2 ^ 53 -> represents (Prim2SF (Int z)) z.
Proof.
  intros Hz Hbound.
  assert (Hlog : 0 <= Z.log2 (Z.abs z) < 53).
  { split; [apply Z.log2_nonneg |]. apply Z.log2_lt_pow2; lia. }
  set (d := Z.log2 (Z.abs z) + 1) in *.
  assert (Hpos : 0 < Z.abs z * 2 ^ (53 - d)).
  { apply Z.mul_pos_pos; [lia |]. apply Z.pow_pos_nonneg; lia. }
  destruct (Z.abs z * 2 ^ (53 - d)) as [|m|m] eqn:Hm; try lia.
  assert (Hdigits : digits2_pos m = 53%positive).
  { apply Pos2Z.inj. rewrite digits2_log2, <- Hm, Z.log2_mul_pow2 by lia.
    unfold d. lia. }
  assert (Hvalue : Z.pos m * 2 ^ (d - 53 + 52) = Z.abs z * 2 ^ 52).
  { rewrite <- Hm, <- Z.mul_assoc, <- Z.pow_add_r by lia.
    f_equal. f_equal. lia. }
  assert (Hround : forall p, Z.pos p = Z.abs z ->
            binary_round prec emax (z <? 0) p 0 = S754_finite (z <? 0) m (d - 53)).
  { intros p Hp.
    apply (binary_round_exact (z <? 0) p m 0 (d - 53) (-52)); try lia.
    - change emin with (-1074). change emax with 1024. change prec with 53. lia.
    - rewrite Hp. replace (d - 53 - -52) with (d - 53 + 52) by lia.
      now rewrite Hvalue. }
  assert (Hnorm : binary_normalize prec emax z 0 false
                  = S754_finite (z <? 0) m (d - 53)).
  { destruct z as [|p|p]; [congruence | |]; cbn [binary_normalize];
      apply Hround; reflexivity. }
  exists m, (d - 53).
  split; [| split; [exact Hdigits | split; [lia | exact Hvalue]]].
  unfold Int. rewrite Hnorm. apply Prim2SF_SF2Prim.
  cbn [SpecFloat.valid_binary]. unfold bounded, canonical_mantissa.
  rewrite Hdigits. apply andb_true_intro. split.
  - apply Z.eqb_eq. unfold fexp. change emin with (-1074).
    change prec with 53. lia.
  - apply Z.leb_le. change emax with 1024. change prec with 53. lia.
Qed.

Lemma shl_align_value (m : positive) (e ez : Z) :
  ez <= e -> Z.pos (fst (shl_align m e ez)) = Z.pos m * 2 ^ (e - ez).
Proof.
  intros Hle. unfold shl_align.
  destruct (ez - e) as [|k|k] eqn:Hdiff; cbn [fst].
  - replace (e - ez) with 0 by lia. change (2 ^ 0) with 1. lia.
  - lia.
  - rewrite iter_xO_mul. f_equal. f_equal. lia.
Qed.

Lemma Int_add (a b : Z) :
  Z.abs a < 2 ^ 53 -> Z.abs b < 2 ^ 53 -> Z.abs (a + b) < 2 ^ 53 ->
  num_add (Int a) (Int b) = Int (a + b).
Proof.
  intros Ha Hb Hab.
  rewrite <- (SF2Prim_Prim2SF (num_add (Int a) (Int b))).
  rewrite <- (SF2Prim_Prim2SF (Int (a + b))). f_equal.
  unfold num_add. rewrite add_spec.
  destruct (Z.eq_dec a 0) as [-> | Hna].
  { rewrite Int_zero, Z.add_0_l.
    destruct (Z.eq_dec b 0) as [-> | Hnb]; [reflexivity |].
    destruct (Int_finite b Hnb Hb) as (m & e & -> & _). reflexivity. }
  destruct (Z.eq_dec b 0) as [-> | Hnb].
  { rewrite Int_zero, Z.add_0_r.
    destruct (Int_finite a Hna Ha) as (m & e & -> & _). reflexivity. }
  destruct (Int_finite a Hna Ha) as (ma & ea & -> & Hda & Hea & Hva).
  destruct (Int_finite b Hnb Hb) as (mb & eb & -> & Hdb & Heb & Hvb).
  unfold SF64add. cbn [SFadd]. set (ez := Z.min ea eb).
  rewrite !shl_align_value by (unfold ez; lia).
  set (sum := cond_Zopp (a <? 0) (Z.pos ma * 2 ^ (ea - ez))
            + cond_Zopp (b <? 0) (Z.pos mb * 2 ^ (eb - ez))).
  assert (Hez : -52 <= ez <= 0) by (unfold ez; lia).
  assert (Hsa : cond_Zopp (a <? 0) (Z.pos ma * 2 ^ (ea - ez)) * 2 ^ (ez + 52)
                = a * 2 ^ 52).
  { assert (E : Z.pos ma * 2 ^ (ea - ez) * 2 ^ (ez + 52) = Z.abs a * 2 ^ 52).
    { rewrite <- Hva, <- Z.mul_assoc, <- Z.pow_add_r by (unfold ez; lia).
      f_equal. f_equal. lia. }
    unfold cond_Zopp. destruct (Z.ltb_spec a 0); lia. }
  assert (Hsb : cond_Zopp (b <? 0) (Z.pos mb * 2 ^ (eb - ez)) * 2 ^ (ez + 52)
                = b * 2 ^ 52).
  { assert (E : Z.pos mb * 2 ^ (eb - ez) * 2 ^ (ez + 52) = Z.abs b * 2 ^ 52).
    { rewrite <- Hvb, <- Z.mul_assoc, <- Z.pow_add_r by (unfold ez; lia).
      f_equal. f_equal. lia. }
    unfold cond_Zopp. destruct (Z.ltb_spec b 0); lia. }
  assert (HS : sum * 2 ^ (ez + 52) = (a + b) * 2 ^ 52).
  { unfold sum. rewrite Z.mul_add_distr_r, Hsa, Hsb. lia. }
  assert (Hpow : 0 < 2 ^ (ez + 52)) by (apply Z.pow_pos_nonneg; lia).
  assert (Hpow52 : 0 < 2 ^ 52) by reflexivity.
  clearbody sum. clear Hsa Hsb.
  destruct (Z.eq_dec (a + b) 0) as [Hzero | Hnab].
  { rewrite Hzero in *. assert (sum = 0) by nia. subst sum. reflexivity. }
  destruct (Int_finite (a + b) Hnab Hab) as (m & e & -> & Hd & He & Hv).
  assert (Hsign : (a + b <? 0) = (sum <? 0)).
  { destruct (Z.ltb_spec (a + b) 0), (Z.ltb_spec sum 0); try reflexivity; nia. }
  assert (Habs : Z.abs sum * 2 ^ (ez + 52) = Z.pos m * 2 ^ (e + 52)).
  { rewrite Hv. destruct (Z.ltb_spec (a + b) 0), (Z.ltb_spec sum 0); nia. }
  rewrite Hsign.
  destruct sum as [|p|p]; [nia | |]; cbn [binary_normalize];
    apply (binary_round_exact _ p m ez e (-52)); try lia; try exact Hd;
    try (change emin with (-1074); change emax with 1024; change prec with 53; lia);
    replace (ez - -52) with (ez + 52) by lia;
    replace (e - -52) with (e + 52) by lia; exact Habs.
Qed.





Lemma Int_injective (a b : Z) :
  Z.abs a < 2 ^ 53 -> Z.abs b < 2 ^ 53 -> Int a = Int b -> a = b.
Proof.
  intros Ha Hb E. apply (f_equal Prim2SF) in E.
  destruct (Z.eq_dec a 0) as [-> | Hna], (Z.eq_dec b 0) as [-> | Hnb];
    [reflexivity | | |].
  - destruct (Int_finite b Hnb Hb) as (m & e & Hm & _).
    rewrite Int_zero, Hm in E. discriminate.
  - destruct (Int_finite a Hna Ha) as (m & e & Hm & _).
    rewrite Int_zero, Hm in E. discriminate.
  - destruct (Int_finite a Hna Ha) as (ma & ea & Hma & _ & _ & Hva).
    destruct (Int_finite b Hnb Hb) as (mb & eb & Hmb & _ & _ & Hvb).
    rewrite Hma, Hmb in E. injection E as Hs <- <-.
    rewrite Hva in Hvb.
    destruct (Z.ltb_spec a 0), (Z.ltb_spec b 0); try discriminate; lia.
Qed.


(** ** getPolynom *)

Section PolynomProperties.

Context `{Host}.

(** When the first coefficient is [undefined], the closure built from
    three coefficients answers [null]. *)
Lemma getPolynom_undefined_leading (b c : value) :
  exists q, getPolynom [VUndefined; b; c] = PolyFun q /\
            forall params, q params = VNull.
Proof. eexists. split; [reflexivity | intros; reflexivity]. Qed.


(** C4, as the code has it: with more than three coefficients
    [getPolynom] returns [null], as it does without any coefficient. *)
Theorem getPolynom_more_than_three (arg : list value) :
  (3 < length arg)%nat -> getPolynom arg = PolyNull.
Proof.
  intros Hlen. unfold getPolynom.
  destruct arg as [|a [|b [|c [|d rest]]]]; simpl in Hlen; try lia.
  reflexivity.
Qed.

End PolynomProperties.

(** ** SameValueZero *)

Lemma num_same_value_zero_sym (a b : number) :
  num_same_value_zero a b = num_same_value_zero b a.
Proof.
  unfold num_same_value_zero.
  now rewrite (num_eqb_sym a b), (andb_comm (PrimFloat.is_nan a)).
Qed.

Lemma num_same_value_zero_trans (a b c : number) :
  num_same_value_zero a b = true ->
  num_same_value_zero b c = true ->
  num_same_value_zero a c = true.
Proof.
  unfold num_same_value_zero. intros E1 E2.
  destruct (PrimFloat.is_nan a) eqn:Ha, (PrimFloat.is_nan b) eqn:Hb,
           (PrimFloat.is_nan c) eqn:Hc; cbn [andb orb] in *; try reflexivity.
  all: try match goal with
    | Hn : PrimFloat.is_nan ?x = true, E : num_eqb ?x _ = true |- _ =>
        now rewrite (proj1 (num_eqb_nan x _ Hn)) in E
    | Hn : PrimFloat.is_nan ?x = true, E : num_eqb _ ?x = true |- _ =>
        now rewrite (proj2 (num_eqb_nan x _ Hn)) in E
    end.
  now apply (num_eqb_trans a b c).
Qed.

Lemma same_value_zero_refl (a : value) : same_value_zero a a = true.
Proof.
  destruct a as [| |b|n|s| | |]; cbn [same_value_zero strict_eq];
    try reflexivity.
  - now destruct b.
  - unfold num_same_value_zero, PrimFloat.is_nan, num_eqb.
    now destruct (PrimFloat.eqb n n).
  - apply String.eqb_refl.
  - apply Nat.eqb_refl.
  - apply Nat.eqb_refl.
  - apply Nat.eqb_refl.
Qed.

Lemma same_value_zero_sym (a b : value) :
  same_value_zero a b = same_value_zero b a.
Proof.
  destruct a, b; simpl; try reflexivity.
  - now destruct b, b0.
  - apply num_same_value_zero_sym.
  - apply String.eqb_sym.
  - apply Nat.eqb_sym.
  - apply Nat.eqb_sym.
  - apply Nat.eqb_sym.
Qed.

Lemma same_value_zero_trans (a b c : value) :
  same_value_zero a b = true ->
  same_value_zero b c = true ->
  same_value_zero a c = true.
Proof.
  destruct a, b; simpl; try discriminate; destruct c; simpl; try discriminate;
    try reflexivity.
  - destruct b, b0, b1; simpl; congruence.
  - apply num_same_value_zero_trans.
  - rewrite !String.eqb_eq. congruence.
  - rewrite !Nat.eqb_eq. congruence.
  - rewrite !Nat.eqb_eq. congruence.
  - rewrite !Nat.eqb_eq. congruence.
Qed.

(** Equal keys are either both equal to a third key or both different
    from it. *)
Lemma same_value_zero_compat (k k1 k2 : value) :
  same_value_zero k1 k2 = true ->
  same_value_zero k k1 = same_value_zero k k2.
Proof.
  intros E.
  destruct (same_value_zero k k1) eqn:E1, (same_value_zero k k2) eqn:E2;
    try reflexivity.
  - now rewrite (same_value_zero_trans k k1 k2) in E2.
  - rewrite same_value_zero_sym in E.
    now rewrite (same_value_zero_trans k k2 k1) in E1.
Qed.

(** ** The cache of memoize *)

Lemma map_has_compat (m : cache) (k1 k2 : value) :
  same_value_zero k1 k2 = true -> map_has m k1 = map_has m k2.
Proof.
  intros E. induction m as [|[k v] m IH]; simpl; [reflexivity |].
  now rewrite IH, (same_value_zero_compat k k1 k2).
Qed.

Lemma map_get_compat (m : cache) (k1 k2 : value) :
  same_value_zero k1 k2 = true -> map_get m k1 = map_get m k2.
Proof.
  intros E. induction m as [|[k v] m IH]; simpl; [reflexivity |].
  now rewrite IH, (same_value_zero_compat k k1 k2).
Qed.

Lemma same_value_zero_compat_l (k k1 k2 : value) :
  same_value_zero k1 k2 = true ->
  same_value_zero k1 k = same_value_zero k2 k.
Proof.
  intros E. rewrite (same_value_zero_sym k1 k), (same_value_zero_sym k2 k).
  now apply same_value_zero_compat.
Qed.

Lemma same_value_zero_normalize (k x : value) :
  same_value_zero (normalize_key x) k = same_value_zero x k.
Proof.
  destruct x as [| | |n| | | |]; try reflexivity.
  cbn [normalize_key]. destruct (num_eqb n (Int 0)) eqn:E; [| reflexivity].
  apply same_value_zero_compat_l. cbn [same_value_zero].
  unfold num_same_value_zero. now rewrite num_eqb_sym, E, orb_true_r.
Qed.

Lemma map_has_set (m : cache) (x v k : value) :
  map_has (map_set m x v) k = map_has m k || same_value_zero x k.
Proof.
  induction m as [|[k' v'] m IH]; simpl.
  - now rewrite same_value_zero_normalize, orb_false_r.
  - destruct (same_value_zero k' x) eqn:E; simpl.
    + rewrite <- (same_value_zero_compat_l k k' x E).
      now destruct (same_value_zero k' k), (map_has m k).
    + now rewrite IH, orb_assoc.
Qed.

Lemma map_get_set (m : cache) (x v k : value) :
  map_get (map_set m x v) k =
  if same_value_zero x k then v else map_get m k.
Proof.
  induction m as [|[k' v'] m IH]; simpl.
  - rewrite same_value_zero_normalize.
    now destruct (same_value_zero x k).
  - destruct (same_value_zero k' x) eqn:E; simpl.
    + rewrite <- (same_value_zero_compat_l k k' x E).
      now destruct (same_value_zero k' k).
    + rewrite IH.
      destruct (same_value_zero k' k) eqn:E', (same_value_zero x k) eqn:E'';
        try reflexivity.
      rewrite same_value_zero_sym in E''.
      now rewrite (same_value_zero_trans k' k x) in E.
Qed.

(** ** memoize *)

Section MemoizeProperties.

Context {W : Type}.
Variable func : jsfun W.

Lemma memoize_hit (c : cache) (s : ext W) (args : list value) :
  map_has c (array_get args 0) = true ->
  code (memoize func) args (c, s) =
  (Normal (map_get c (array_get args 0)), (c, s)).
Proof.
  intros Hhas. cbn [code memoize]. unfold memoize_foo. run_js.
  now rewrite Hhas.
Qed.

Lemma memoize_miss (c : cache) (s : ext W) (args : list value) :
  map_has c (array_get args 0) = false ->
  code (memoize func) args (c, s) =
  match fn_body func [array_get args 0] (world s) with
  | (Normal r, w) =>
      (Normal r, (map_set c (array_get args 0) r,
                  after_call func s [array_get args 0] (Normal r) w))
  | (Throw e, w) =>
      (Throw e, (c, after_call func s [array_get args 0] (Throw e) w))
  end.
Proof.
  intros Hhas. cbn [code memoize]. unfold memoize_foo. run_js.
  rewrite Hhas. run_js.
  now destruct (fn_body func [array_get args 0] (world s)) as [[r|e] w].
Qed.

Lemma memoize_steps (c : cache) (s : ext W) (args : list value) :
  exists r c' s',
    code (memoize func) args (c, s) = (r, (c', s')) /\
    memoize_step func c s (array_get args 0) r c' s'.
Proof.
  destruct (map_has c (array_get args 0)) eqn:Hhas.
  - exists (Normal (map_get c (array_get args 0))), c, s.
    split; [now apply memoize_hit | now constructor].
  - rewrite (memoize_miss c s args Hhas).
    destruct (fn_body func [array_get args 0] (world s)) as [[r|e] w] eqn:Hbody.
    + eexists _, _, _. split; [reflexivity | now constructor].
    + eexists _, _, _. split; [reflexivity | now constructor].
Qed.




(** A function that acts on the world only does not call the memoized
    function back: whatever the bound on the nesting, the memoized
    function does on it what [memoize_foo] does, and it ends. *)
Lemma memoize_reentrant_of (depth : nat) (args : list value) (st : cache * ext W) :
  memoize_reentrant (S depth) (reentrant_of func) args st
  = Some (code (memoize func) args st).
Proof.
  destruct st as [c s]. cbn [memoize_reentrant fst].
  destruct (map_has c (array_get args 0)) eqn:Hhas.
  - now rewrite memoize_hit.
  - rewrite (memoize_miss c s args Hhas).
    cbn [reentrant_of re_body re_ref run_script fst snd world trace].
    unfold after_call.
    now destruct (fn_body func [array_get args 0] (world s)) as [[r|e] w].
Qed.

Lemma run_reentrant_of (depth : nat) (calls : list (list value)) :
  forall st : cache * ext W,
    run_reentrant (S depth) (reentrant_of func) calls st
    = Some (run_calls (memoize func) calls st).
Proof.
  induction calls as [|args rest IH]; intros st; [reflexivity |].
  cbn [run_reentrant run_calls]. rewrite memoize_reentrant_of.
  destruct (code (memoize func) args st) as [r st1]. rewrite IH.
  now destruct (run_calls (memoize func) rest st1) as [rs st2].
Qed.

(** A hit, whatever [func] is. *)
Lemma memoize_reentrant_hit (depth : nat) (g : reentrant W) (c : cache)
    (s : ext W) (args : list value) :
  map_has c (array_get args 0) = true ->
  memoize_reentrant (S depth) g args (c, s)
  = Some (Normal (map_get c (array_get args 0)), (c, s)).
Proof. intros Hhas. cbn [memoize_reentrant fst]. now rewrite Hhas. Qed.


Lemma memoize_foo_failure (c : cache) (s : ext W) (x e : value) (w : W) :
  map_has c x = false ->
  fn_body func [x] (world s) = (Throw e, w) ->
  code (memoize func) [x] (c, s) = (Throw e, (c, after_call func s [x] (Throw e) w))
  /\ forall (calls : list (list value)) rs c' s',
       Forall (fun args => same_value_zero (array_get args 0) x = false) calls ->
       run_calls (memoize func) calls (c, after_call func s [x] (Throw e) w)
         = (rs, (c', s')) ->
       map_has c' x = false
       /\ exists r c'' s'',
            code (memoize func) [x] (c', s') = (r, (c'', s''))
            /\ trace s'' = trace s' ++ [mkCall (fn_ref func) [x] r].
Proof.
  intros Hmiss Hbody. split.
  - rewrite (memoize_miss c s [x] Hmiss). cbn [array_get nth]. now rewrite Hbody.
  - intros calls. generalize (after_call func s [x] (Throw e) w) as s1.
    revert c Hmiss.
    induction calls as [|args rest IH]; intros c Hmiss s1 rs c' s' Hother Hrun.
    + cbn in Hrun. injection Hrun as <- <- <-. split; [exact Hmiss |].
      rewrite (memoize_miss c s1 [x] Hmiss). cbn [array_get nth].
      destruct (fn_body func [x] (world s1)) as [[r|e'] w'];
        eexists _, _, _; split; reflexivity.
    + cbn [run_calls] in Hrun.
      destruct (memoize_steps c s1 args) as (r & c1 & s2 & Hcode & Hstep).
      rewrite Hcode in Hrun.
      destruct (run_calls (memoize func) rest (c1, s2)) as [rs' [c2 s3]] eqn:Hrest.
      injection Hrun as <- <- <-.
      inversion Hother as [|? ? Hargs Hrest']; subst.
      apply (IH c1) with (s1 := s2) (rs := rs'); [| assumption | assumption].
      destruct Hstep as [Hhit | v w' Hmiss' Hbody' | e' w' Hmiss' Hbody'];
        try assumption.
      now rewrite map_has_set, Hmiss, Hargs.
Qed.

(** C8, for a [func] that acts on the world only, so that it does not
    call the memoized function back.  When [func] throws on [x], the call
    of the memoized function throws the same value and leaves the cache as
    it was, without an entry for [x]; further calls with other keys end
    and leave the cache without an entry for [x], and the next call with
    [x] calls [func] again. *)
Theorem memoize_failure_not_cached (depth : nat) (c : cache) (s : ext W)
    (x e : value) (w : W) :
  map_has c x = false ->
  fn_body func [x] (world s) = (Throw e, w) ->
  memoize_reentrant (S depth) (reentrant_of func) [x] (c, s)
  = Some (Throw e, (c, after_call func s [x] (Throw e) w))
  /\ forall calls : list (list value),
       Forall (fun args => same_value_zero (array_get args 0) x = false) calls ->
       exists rs c' s',
         run_reentrant (S depth) (reentrant_of func) calls
           (c, after_call func s [x] (Throw e) w) = Some (rs, (c', s'))
         /\ map_has c' x = false
         /\ exists r c'' s'',
              memoize_reentrant (S depth) (reentrant_of func) [x] (c', s')
              = Some (r, (c'', s''))
              /\ trace s'' = trace s' ++ [mkCall (fn_ref func) [x] r].
Proof.
  intros Hmiss Hbody.
  destruct (memoize_foo_failure c s x e w Hmiss Hbody) as [Hthrows Hlater].
  split; [now rewrite memoize_reentrant_of, Hthrows |].
  intros calls Hother. rewrite run_reentrant_of.
  destruct (run_calls (memoize func) calls (c, after_call func s [x] (Throw e) w))
    as [rs [c' s']] eqn:Hrun.
  destruct (Hlater calls rs c' s' Hother Hrun) as (Hnone & r & c'' & s'' & Hcode & Htrace).
  exists rs, c', s'. split; [reflexivity |]. split; [exact Hnone |].
  exists r, c'', s''. split; [now rewrite memoize_reentrant_of, Hcode | exact Htrace].
Qed.

(** *** What holds of every [func] *)

(** A relation between the states before and after a call of the memoized
    function holds when it is reflexive and transitive and holds of the
    three things that change the state: [func] writes the world, a call of
    [func] ends, the result is stored. *)
Section Invariant.

Variable R : cache * ext W -> cache * ext W -> Prop.
Hypothesis R_refl : forall st, R st st.
Hypothesis R_trans : forall st1 st2 st3, R st1 st2 -> R st2 st3 -> R st1 st3.
Hypothesis R_act :
  forall c e w, R (c, e) (c, {| world := w; trace := trace e |}).
Hypothesis R_set : forall c e x v, R (c, e) (map_set c x v, e).
Hypothesis R_end :
  forall c e cl, R (c, e) (c, {| world := world e; trace := trace e ++ [cl] |}).

Lemma run_script_invariant
    (self : list value -> cache * ext W -> option (completion value * (cache * ext W))) :
  (forall args st r st', self args st = Some (r, st') -> R st st') ->
  forall p st r st', run_script self p st = Some (r, st') -> R st st'.
Proof.
  intros Hself p.
  induction p as [r0 | write next IH | args next IH]; intros st r st' Hrun;
    cbn [run_script] in Hrun.
  - injection Hrun as <- <-. apply R_refl.
  - eapply R_trans; [| eapply IH; exact Hrun]. destruct st as [c e]. apply R_act.
  - destruct (self args st) as [[r1 st1]|] eqn:E; [| discriminate].
    eapply R_trans; [eapply Hself; exact E | eapply IH; exact Hrun].
Qed.

Lemma memoize_reentrant_invariant (g : reentrant W) (depth : nat) :
  forall args st r st',
    memoize_reentrant depth g args st = Some (r, st') -> R st st'.
Proof.
  induction depth as [|d IH]; intros args st r st' Hrun; [discriminate |].
  cbn [memoize_reentrant] in Hrun.
  destruct (map_has (fst st) (array_get args 0)).
  - injection Hrun as <- <-. apply R_refl.
  - destruct (run_script (memoize_reentrant d g) (re_body g [array_get args 0]) st)
      as [[[v|e] [c1 e1]]|] eqn:E; [| | discriminate].
    + injection Hrun as <- <-.
      eapply R_trans; [eapply (run_script_invariant _ IH); exact E |].
      eapply R_trans; [apply R_set | apply R_end].
    + injection Hrun as <- <-.
      eapply R_trans; [eapply (run_script_invariant _ IH); exact E |].
      apply R_end.
Qed.

End Invariant.

Lemma memoize_reentrant_trace (g : reentrant W) (depth : nat) args st r st' :
  memoize_reentrant depth g args st = Some (r, st') -> trace_grows st st'.
Proof.
  apply (memoize_reentrant_invariant trace_grows); unfold trace_grows.
  - intros st0. exists []. now rewrite app_nil_r.
  - intros st1 st2 st3 [n1 H1] [n2 H2]. exists (n1 ++ n2).
    now rewrite H2, H1, app_assoc.
  - intros c e w. exists []. cbn. now rewrite app_nil_r.
  - intros c e x v. exists []. cbn. now rewrite app_nil_r.
  - intros c e cl. exists [cl]. reflexivity.
Qed.

(** On a miss the last recorded call is the call of [func] on the key,
    with the outcome of the call of the memoized function. *)
Lemma memoize_reentrant_miss (g : reentrant W) (depth : nat) (c : cache)
    (s : ext W) (args : list value) r c' s' :
  map_has c (array_get args 0) = false ->
  memoize_reentrant (S depth) g args (c, s) = Some (r, (c', s')) ->
  exists new,
    trace s' = trace s ++ new ++ [mkCall (re_ref g) [array_get args 0] r].
Proof.
  intros Hmiss Hrun. cbn [memoize_reentrant fst] in Hrun. rewrite Hmiss in Hrun.
  destruct (run_script (memoize_reentrant depth g) (re_body g [array_get args 0]) (c, s))
    as [[r1 [c1 e1]]|] eqn:E; [| discriminate].
  assert (Hgrows : trace_grows (c, s) (c1, e1)).
  { refine (run_script_invariant trace_grows _ _ _ _ _ _ _ _ _ E);
      unfold trace_grows.
    - intros st0. exists []. now rewrite app_nil_r.
    - intros st1 st2 st3 [n1 H1] [n2 H2]. exists (n1 ++ n2).
      now rewrite H2, H1, app_assoc.
    - intros c0 e w. exists []. cbn. now rewrite app_nil_r.
    - intros a0 st0 r0 st0'. apply memoize_reentrant_trace. }
  destruct Hgrows as [new Hnew]. cbn [snd] in Hnew. exists new.
  destruct r1 as [v|e]; injection Hrun as <- <- <-; cbn [trace];
    now rewrite Hnew, app_assoc.
Qed.

(** After a call that returned, the cache has the returned value under
    the key. *)
Lemma memoize_reentrant_recorded (g : reentrant W) (depth : nat) (c : cache)
    (s : ext W) (args : list value) r c' s' :
  memoize_reentrant depth g args (c, s) = Some (Normal r, (c', s')) ->
  map_has c' (array_get args 0) = true /\ map_get c' (array_get args 0) = r.
Proof.
  destruct depth as [|d]; [discriminate |]. cbn [memoize_reentrant fst].
  destruct (map_has c (array_get args 0)) eqn:Hhas.
  - intros E. injection E as <- <- <-. now split.
  - destruct (run_script (memoize_reentrant d g) (re_body g [array_get args 0]) (c, s))
      as [[[v|e] [c1 e1]]|]; [| discriminate | discriminate].
    intros E. injection E as <- <- <-.
    rewrite map_has_set, map_get_set, same_value_zero_refl.
    now rewrite orb_true_r.
Qed.

Lemma memoize_reentrant_equal_keys (g : reentrant W) (depth : nat)
    (k1 k2 : value) (c : cache) (s : ext W) r c' s' :
  same_value_zero k1 k2 = true ->
  memoize_reentrant (S depth) g [k1] (c, s) = Some (Normal r, (c', s')) ->
  memoize_reentrant (S depth) g [k2] (c', s') = Some (Normal r, (c', s')).
Proof.
  intros Hsame Hrun.
  destruct (memoize_reentrant_recorded g _ c s [k1] r c' s' Hrun) as [Hhas Hget].
  cbn [array_get nth] in Hhas, Hget.
  rewrite (memoize_reentrant_hit depth g c' s' [k2]); cbn [array_get nth].
  - now rewrite <- (map_get_compat c' k1 k2 Hsame), Hget.
  - now rewrite <- (map_has_compat c' k1 k2 Hsame).
Qed.

(** [map_has] and [map_get] by the entries of the cache. *)
Lemma map_has_none (c : cache) (x : value) :
  (forall k v, In (k, v) c -> same_value_zero k x = false) ->
  map_has c x = false.
Proof.
  induction c as [|[k v] c IH]; intros Hnone; [reflexivity |].
  cbn [map_has]. rewrite (Hnone k v (or_introl eq_refl)). cbn [orb].
  apply IH. intros k' v' Hin. apply (Hnone k' v'). now right.
Qed.

Lemma map_first_entry (c1 c2 : cache) (k v x : value) :
  same_value_zero k x = true ->
  (forall k' v', In (k', v') c1 -> same_value_zero k' x = false) ->
  map_has (c1 ++ (k, v) :: c2) x = true /\ map_get (c1 ++ (k, v) :: c2) x = v.
Proof.
  intros Hk. induction c1 as [|[k1 v1] c1 IH]; intros Hnone.
  - cbn [app map_has map_get]. now rewrite Hk.
  - cbn [app map_has map_get]. rewrite (Hnone k1 v1 (or_introl eq_refl)).
    cbn [orb]. apply IH. intros k' v' Hin. apply (Hnone k' v'). now right.
Qed.

(** [Map.prototype.set] keeps the keys of the cache apart. *)
Lemma distinct_keys_cons (k v : value) (c : cache) :
  distinct_keys ((k, v) :: c) <->
  (forall k' v', In (k', v') c -> same_value_zero k k' = false) /\ distinct_keys c.
Proof.
  unfold distinct_keys. split.
  - intros Hd. split.
    + intros k' v' Hin. apply list_elem_of_In, list_elem_of_lookup in Hin as [j Hj].
      destruct (same_value_zero k k') eqn:E; [| reflexivity].
      specialize (Hd 0%nat (S j) k v k' v' eq_refl Hj E). discriminate.
    + intros i j ki vi kj vj Hi Hj E.
      specialize (Hd (S i) (S j) ki vi kj vj Hi Hj E). now injection Hd.
  - intros [Hhead Hd] [|i] [|j] ki vi kj vj Hi Hj E; cbn in Hi, Hj.
    + reflexivity.
    + injection Hi as <- <-.
      apply list_elem_of_lookup_2, list_elem_of_In in Hj.
      rewrite (Hhead kj vj Hj) in E. discriminate.
    + injection Hj as <- <-.
      apply list_elem_of_lookup_2, list_elem_of_In in Hi.
      rewrite same_value_zero_sym, (Hhead ki vi Hi) in E. discriminate.
    + f_equal. now apply (Hd i j ki vi kj vj).
Qed.

Lemma map_set_keys (c : cache) (x v k' v' : value) :
  In (k', v') (map_set c x v) ->
  (exists u, In (k', u) c) \/ k' = normalize_key x.
Proof.
  induction c as [|[k u] c IH]; cbn [map_set].
  - intros [E | []]. injection E as <- <-. now right.
  - destruct (same_value_zero k x).
    + intros [E | Hin].
      * injection E as <- <-. left. exists u. now left.
      * left. exists v'. now right.
    + intros [E | Hin].
      * injection E as <- <-. left. exists u. now left.
      * destruct (IH Hin) as [[u' Hu] | ->]; [left; exists u'; now right | now right].
Qed.

Lemma map_set_distinct (c : cache) (x v : value) :
  distinct_keys c -> distinct_keys (map_set c x v).
Proof.
  induction c as [|[k u] c IH]; cbn [map_set]; intros Hd.
  - apply distinct_keys_cons. split; [intros k' v' [] |].
    intros i j ki vi kj vj Hi. discriminate.
  - apply distinct_keys_cons in Hd as [Hhead Hd].
    destruct (same_value_zero k x) eqn:E; apply distinct_keys_cons.
    + now split.
    + split; [| now apply IH].
      intros k' v' Hin. destruct (map_set_keys c x v k' v' Hin) as [[u' Hu] | ->].
      * now apply (Hhead k' u').
      * now rewrite same_value_zero_sym, same_value_zero_normalize,
          same_value_zero_sym.
Qed.

Lemma memoize_reentrant_distinct (g : reentrant W) (depth : nat) args st r st' :
  memoize_reentrant depth g args st = Some (r, st') ->
  distinct_keys (fst st) -> distinct_keys (fst st').
Proof.
  apply (memoize_reentrant_invariant
           (fun a b => distinct_keys (fst a) -> distinct_keys (fst b)));
    cbn [fst]; try tauto.
  intros c e x v. apply map_set_distinct.
Qed.

Lemma zeros_differ : Int 0 <> NegZero.
Proof.
  intros E. apply (f_equal Prim2SF) in E. vm_compute in E. discriminate.
Qed.

(** C10: the keys of the cache are compared with SameValueZero and not
    with [===].  The two differ on [NaN] and agree on the two zeros, which
    are different numbers; on numbers SameValueZero is the equality of
    doubles, or both being [NaN].  Whatever [func] is: a call whose key is
    SameValueZero to the key of an entry, and to the key of no entry
    before it, returns the value of that entry and calls nothing; a call
    whose key is SameValueZero to the key of no entry calls [func] with
    it, last; a call with [NaN] that follows a call with [NaN] that
    returned returns the stored value and calls nothing, and so for the
    two zeros in either order, and for any two keys that are
    SameValueZero; no two entries of the cache ever have keys that are
    SameValueZero.  For a [func] that acts on the world only, the entry
    made for the negative zero in an empty cache is the single entry of
    that cache. *)
Theorem memoize_keys_same_value_zero (depth : nat) (g : reentrant W) :
  (strict_eq (VNum NaN) (VNum NaN) = false
   /\ same_value_zero (VNum NaN) (VNum NaN) = true
   /\ strict_eq (VNum (Int 0)) (VNum NegZero) = true
   /\ same_value_zero (VNum (Int 0)) (VNum NegZero) = true
   /\ Int 0 <> NegZero)
  /\ (forall a b : number,
        same_value_zero (VNum a) (VNum b)
        = (PrimFloat.is_nan a && PrimFloat.is_nan b) || PrimFloat.eqb a b)
  /\ (forall (c1 c2 : cache) (k v x : value) (s : ext W),
        same_value_zero k x = true ->
        (forall k' v', In (k', v') c1 -> same_value_zero k' x = false) ->
        memoize_reentrant (S depth) g [x] (c1 ++ (k, v) :: c2, s)
        = Some (Normal v, (c1 ++ (k, v) :: c2, s)))
  /\ (forall (c : cache) (s : ext W) (x : value) r c' s',
        (forall k' v', In (k', v') c -> same_value_zero k' x = false) ->
        memoize_reentrant (S depth) g [x] (c, s) = Some (r, (c', s')) ->
        exists new, trace s' = trace s ++ new ++ [mkCall (re_ref g) [x] r])
  /\ (forall (c : cache) (s : ext W) r c' s',
        memoize_reentrant (S depth) g [VNum NaN] (c, s) = Some (Normal r, (c', s')) ->
        memoize_reentrant (S depth) g [VNum NaN] (c', s') = Some (Normal r, (c', s')))
  /\ (forall (c : cache) (s : ext W) r c' s',
        memoize_reentrant (S depth) g [VNum (Int 0)] (c, s) = Some (Normal r, (c', s')) ->
        memoize_reentrant (S depth) g [VNum NegZero] (c', s') = Some (Normal r, (c', s')))
  /\ (forall (c : cache) (s : ext W) r c' s',
        memoize_reentrant (S depth) g [VNum NegZero] (c, s) = Some (Normal r, (c', s')) ->
        memoize_reentrant (S depth) g [VNum (Int 0)] (c', s') = Some (Normal r, (c', s')))
  /\ (forall (k1 k2 : value) (c : cache) (s : ext W) r c' s',
        same_value_zero k1 k2 = true ->
        memoize_reentrant (S depth) g [k1] (c, s) = Some (Normal r, (c', s')) ->
        memoize_reentrant (S depth) g [k2] (c', s') = Some (Normal r, (c', s')))
  /\ (forall (args : list value) (c : cache) (s : ext W) r c' s',
        distinct_keys c ->
        memoize_reentrant (S depth) g args (c, s) = Some (r, (c', s')) ->
        distinct_keys c')
  /\ (forall (s : ext W) r c' s',
        memoize_reentrant (S depth) (reentrant_of func) [VNum NegZero] ([], s)
        = Some (Normal r, (c', s')) ->
        c' = [(VNum (Int 0), r)]).
Proof.
  split; [repeat split; try reflexivity; apply zeros_differ |].
  split; [reflexivity |].
  split.
  { intros c1 c2 k v x s Hk Hnone.
    destruct (map_first_entry c1 c2 k v x Hk Hnone) as [Hhas Hget].
    rewrite (memoize_reentrant_hit depth g _ s [x]); cbn [array_get nth];
      [now rewrite Hget | exact Hhas]. }
  split.
  { intros c s x r c' s' Hnone Hrun.
    apply (memoize_reentrant_miss g depth c s [x] r c' s'); [| exact Hrun].
    now apply map_has_none. }
  split; [intros c s r c' s'; now apply memoize_reentrant_equal_keys |].
  split; [intros c s r c' s'; now apply memoize_reentrant_equal_keys |].
  split; [intros c s r c' s'; now apply memoize_reentrant_equal_keys |].
  split; [intros k1 k2 c s r c' s'; now apply memoize_reentrant_equal_keys |].
  split.
  { intros args c s r c' s' Hd Hrun.
    now apply (memoize_reentrant_distinct g _ args (c, s) r (c', s') Hrun). }
  intros s r c' s'. rewrite memoize_reentrant_of.
  intros E. injection E as E.
  pose proof (eq_trans (eq_sym E) (memoize_miss [] s [VNum NegZero] eq_refl)) as E'.
  cbn [array_get nth] in E'.
  destruct (fn_body func [VNum NegZero] (world s)) as [[v|e] w];
    [| discriminate].
  now injection E' as -> -> ->.
Qed.

End MemoizeProperties.

(** ** retry *)

Section RetryProperties.

Context `{Host}.
Context {W : Type}.
Variable func : jsfun W.

(** X10: when the first call returns, [retry] returns the function itself. *)
Lemma retry_first_call_returns (attempts v : value) (s : ext W) (w : W) :
  fn_body func [] (world s) = (Normal v, w) ->
  retry func attempts s = (Normal (VFun (fn_ref func)), after_call func s [] (Normal v) w).
Proof.
  intros Hbody. unfold retry. run_js. now rewrite Hbody.
Qed.

(** X11: when the first call throws and [attempts] is [0], [retry] returns
    [attempts] and the exception is lost. *)
Lemma retry_zero_attempts (attempts e : value) (s : ext W) (w : W) :
  fn_body func [] (world s) = (Throw e, w) ->
  strict_eq (VNum (Int 0)) attempts = true ->
  retry func attempts s = (Normal attempts, after_call func s [] (Throw e) w).
Proof.
  intros Hbody Hzero. unfold retry. run_js. rewrite Hbody. run_js.
  now rewrite Hzero.
Qed.

(** X12: when the first call throws and [attempts] is not [0], [func] is called
    again, and once more if this call throws too, whatever [attempts] is;
    the third call decides. *)
Lemma retry_other_attempts (attempts e1 : value) (s : ext W) (w1 : W) :
  fn_body func [] (world s) = (Throw e1, w1) ->
  strict_eq (VNum (Int 0)) attempts = false ->
  retry func attempts s =
  match fn_body func [] w1 with
  | (Normal v, w2) =>
      (Normal (VFun (fn_ref func)), after_call func (after_call func s [] (Throw e1) w1) [] (Normal v) w2)
  | (Throw e2, w2) =>
      match fn_body func [] w2 with
      | (Normal v, w3) =>
          (Normal (VFun (fn_ref func)),
           after_call func (after_call func (after_call func s [] (Throw e1) w1) [] (Throw e2) w2) [] (Normal v) w3)
      | (Throw e3, w3) =>
          (Throw e3,
           after_call func (after_call func (after_call func s [] (Throw e1) w1) [] (Throw e2) w2) [] (Throw e3) w3)
      end
  end.
Proof.
  intros Hbody Hnonzero. unfold retry. run_js. rewrite Hbody. run_js.
  rewrite Hnonzero. run_js.
  destruct (fn_body func [] w1) as [[v|e2] w2]; [reflexivity |].
  run_js. rewrite Hnonzero. run_js.
  now destruct (fn_body func [] w2) as [[v|e3] w3].
Qed.

End RetryProperties.

(** ** logger *)

Section LoggerProperties.

Context `{Host}.
Context {W : Type}.
Variables func logFunc : jsfun W.

Lemma slice_all_but_last_head (arr : list value) :
  (2 <= length arr)%nat ->
  array_get (slice arr 0 (Z.of_nat (length arr) - 1)) 0 = array_get arr 0.
Proof.
  intros Hlen. unfold slice.
  assert (relative_index (length arr) 0 = 0%nat) as -> by reflexivity.
  assert (relative_index (length arr) (Z.of_nat (length arr) - 1)
          = (length arr - 1)%nat) as ->.
  { unfold relative_index.
    destruct (Z.ltb_spec (Z.of_nat (length arr) - 1) 0); lia. }
  destruct arr as [|a [|b rest]]; cbn in Hlen; try lia.
  reflexivity.
Qed.

(** C9: a call of the wrapper without argument, or with two or more
    arguments the first of which is not an array, throws a [TypeError];
    no log line has been written and [func] has not been called. *)
Theorem logger_type_error (args : list value) (s : ext W) :
  args = [] \/ ((2 <= length args)%nat /\ is_array (array_get args 0) = false) ->
  logger func logFunc args s = (Throw type_error, s).
Proof.
  intros [-> | [Hlen Harr]]; [reflexivity |].
  unfold logger, logger_wrapper.
  destruct (Nat.eqb_spec (length args) 1) as [Hone | _]; [lia |].
  rewrite (slice_all_but_last_head args Hlen).
  unfold bind.
  now destruct (array_get args 0).
Qed.

(** X13: with one argument the wrapper writes both lines and only then calls
    [func]. *)
Lemma logger_one_argument (a : value) (s : ext W) (w1 w2 : W) (u1 u2 : value) :
  let starts := VStr (fn_name (fn_ref func) ++ "(" ++ join "," [a] ++ ") starts")%string in
  let ends := VStr (fn_name (fn_ref func) ++ "(" ++ join "," [a] ++ ") ends")%string in
  fn_body logFunc [starts] (world s) = (Normal u1, w1) ->
  fn_body logFunc [ends] w1 = (Normal u2, w2) ->
  logger func logFunc [a] s =
  (fst (fn_body func [a] w2),
   {| world := snd (fn_body func [a] w2);
      trace := trace s ++ [mkCall (fn_ref logFunc) [starts] (Normal u1);
                           mkCall (fn_ref logFunc) [ends] (Normal u2);
                           mkCall (fn_ref func) [a] (fst (fn_body func [a] w2))] |}).
Proof.
  intros starts ends Hstarts Hends.
  unfold logger, logger_wrapper. cbn [length Nat.eqb]. run_js.
  fold starts. rewrite Hstarts. run_js. fold ends. rewrite Hends. run_js.
  destruct (fn_body func [a] w2) as [r w3]. cbn [fst snd].
  now rewrite <- !app_assoc.
Qed.

(** With an array and a last argument the wrapper writes the first line,
    calls [func], and writes the second line once [func] has returned. *)
Lemma logger_array_argument (addr : nat) (items : list value) (b v : value)
    (s : ext W) (w1 w2 w3 : W) (u1 u2 : value) :
  let args := [VArr addr items; b] in
  let starts := VStr (fn_name (fn_ref func) ++ "([" ++ join "," (map quote_item items)
                      ++ "]," ++ to_string (js_plus b) ++ ") starts")%string in
  let ends := VStr (fn_name (fn_ref func) ++ "([" ++ join "," (map quote_item items)
                    ++ "]," ++ to_string b ++ ") ends")%string in
  fn_body logFunc [starts] (world s) = (Normal u1, w1) ->
  fn_body func args w1 = (Normal v, w2) ->
  fn_body logFunc [ends] w2 = (Normal u2, w3) ->
  logger func logFunc args s =
  (Normal v,
   {| world := w3;
      trace := trace s ++ [mkCall (fn_ref logFunc) [starts] (Normal u1);
                           mkCall (fn_ref func) args (Normal v);
                           mkCall (fn_ref logFunc) [ends] (Normal u2)] |}).
Proof.
  intros args starts ends Hstarts Hfunc Hends.
  unfold logger, logger_wrapper. cbn [length Nat.eqb args].
  change (array_get (slice args 0 (Z.of_nat 2 - 1)) 0) with (VArr addr items).
  change (array_get args (2 - 1)) with b.
  cbn [call_map]. run_js.
  fold starts. rewrite Hstarts. run_js. rewrite Hfunc.
  run_js. fold ends. rewrite Hends.
  now rewrite <- !app_assoc.
Qed.

End LoggerProperties.

(** ** partialUsingArguments *)

Section PartialProperties.

Context `{Host}.
Context {W : Type}.
Variable fn : jsfun W.

Lemma append_empty_r (s : string) : (s ++ "")%string = s.
Proof.
  induction s as [|c s IH]; [reflexivity |].
  change (String c (s ++ "")%string = String c s). now f_equal.
Qed.

Lemma join_empty_cons (x : value) (l : list value) :
  join "" (x :: l) = ((if is_nullish x then "" else to_string x) ++ join "" l)%string.
Proof. destruct l; cbn [join]; [now rewrite append_empty_r | reflexivity]. Qed.

Lemma append_assoc (a b c : string) :
  ((a ++ b) ++ c)%string = (a ++ (b ++ c))%string.
Proof.
  induction a as [|x a IH]; [reflexivity |].
  change (String x ((a ++ b) ++ c)%string = String x (a ++ (b ++ c))%string).
  now f_equal.
Qed.

Lemma join_empty_app (l1 l2 : list value) :
  join "" (l1 ++ l2) = (join "" l1 ++ join "" l2)%string.
Proof.
  induction l1 as [|x l1 IH]; [reflexivity |].
  rewrite <- app_comm_cons, !join_empty_cons, IH. now rewrite append_assoc.
Qed.

(** X17: the closure never calls [fn]: it returns the text of all the
    arguments, bound ones first, and leaves the state as it is.  The
    result only depends on the whole list of arguments, not on where it
    is cut. *)
Lemma partialUsingArguments_text (args1 args : list value) (s : ext W) :
  partialUsingArguments fn args1 args s =
  (Normal (VStr (join "" (args1 ++ args))), s).
Proof.
  unfold partialUsingArguments, ret. now rewrite join_empty_app.
Qed.

End PartialProperties.

(** ** getIdGeneratorFunction *)

Section GeneratorProperties.

Context `{Host}.

Lemma wrapper_body_any (start : value) (n : nat) :
  wrapper_body (gen_env_after start n) =
  (js_add start (VNum (counter n)), gen_env_after start (S n)).
Proof. destruct n as [|m]; reflexivity. Qed.

(** A call of a closure of the store returns. *)
Lemma id_wrapper_returns (r : nat) (h : gmap nat gen_env) :
  is_Some (h !! r) -> is_Some (id_wrapper r h).
Proof.
  intros [env Henv]. unfold id_wrapper. rewrite Henv.
  destruct (wrapper_body env). eauto.
Qed.

(** A call of a closure leaves the environments of the others alone. *)
Lemma id_wrapper_other (r r' : nat) (h h' : gmap nat gen_env) (v : value) :
  id_wrapper r h = Some (v, h') -> r' <> r -> h' !! r' = h !! r'.
Proof.
  unfold id_wrapper. destruct (h !! r) as [env|]; [| discriminate].
  destruct (wrapper_body env) as [v' env']. intros E Hne.
  injection E as <- <-. now rewrite lookup_insert_ne.
Qed.

(** The new closure is not one of the store, whose environments are
    kept. *)
Lemma getIdGeneratorFunction_fresh (start : value) (h : gmap nat gen_env) :
  h !! fst (getIdGeneratorFunction start h) = None
  /\ forall r, is_Some (h !! r) ->
       snd (getIdGeneratorFunction start h) !! r = h !! r.
Proof.
  cbn [getIdGeneratorFunction fst snd]. split.
  - apply not_elem_of_dom, is_fresh.
  - intros r Hr. apply lookup_insert_ne. intros <-.
    apply elem_of_dom in Hr. now apply (is_fresh (dom h)).
Qed.

(** Whatever the client does, the generator at [g], already called [n]
    times, goes on with [start + counter n], [start + counter (n + 1)]
    and so on. *)
Lemma run_ops_any_start (start : value) (g : nat) (ops : list gen_op) :
  forall (h : gmap nat gen_env) (n : nat) results h',
    h !! g = Some (gen_env_after start n) ->
    run_ops ops h = Some (results, h') ->
    returned_by g results =
    map (fun i => js_add start (VNum (counter i)))
        (seq n (length (returned_by g results))).
Proof.
  induction ops as [|[start' | r] ops IH]; intros h n results h' Hg Hrun.
  - injection Hrun as <- <-. reflexivity.
  - cbn [run_ops] in Hrun.
    destruct (getIdGeneratorFunction_fresh start' h) as [_ Hkept].
    destruct (getIdGeneratorFunction start' h) as [r h1] eqn:Hnew.
    cbn [snd] in Hkept.
    destruct (run_ops ops h1) as [[results' h2]|] eqn:Hrest; [| discriminate].
    injection Hrun as <- <-. cbn [returned_by].
    apply (IH h1 n results' h2); [| exact Hrest].
    rewrite Hkept; [exact Hg | eauto].
  - cbn [run_ops] in Hrun.
    destruct (id_wrapper r h) as [[v h1]|] eqn:Hcall; [| discriminate].
    destruct (run_ops ops h1) as [[results' h2]|] eqn:Hrest; [| discriminate].
    injection Hrun as <- <-. cbn [returned_by].
    destruct (Nat.eqb_spec r g) as [-> | Hne].
    + unfold id_wrapper in Hcall. rewrite Hg, wrapper_body_any in Hcall.
      injection Hcall as <- <-.
      cbn [length seq map]. f_equal.
      apply (IH (<[g := gen_env_after start (S n)]> h) (S n) results' h2);
        [| exact Hrest].
      apply lookup_insert_eq.
    + apply (IH h1 n results' h2); [| exact Hrest].
      rewrite (id_wrapper_other r g h h1 v Hcall); [exact Hg | congruence].
Qed.

(** The generator at [g] returns once for each of its calls. *)
Lemma run_ops_count (g : nat) (ops : list gen_op) :
  forall (h : gmap nat gen_env) results h',
    run_ops ops h = Some (results, h') ->
    length (returned_by g results)
    = length (List.filter (fun op => match op with
                                     | Next r => Nat.eqb r g
                                     | Create _ => false
                                     end) ops).
Proof.
  induction ops as [|[start' | r] ops IH]; intros h results h' Hrun.
  - injection Hrun as <- <-. reflexivity.
  - cbn [run_ops] in Hrun.
    destruct (getIdGeneratorFunction start' h) as [r h1].
    destruct (run_ops ops h1) as [[results' h2]|] eqn:Hrest; [| discriminate].
    injection Hrun as <- <-. cbn [returned_by List.filter].
    now apply (IH h1 results' h2).
  - cbn [run_ops] in Hrun.
    destruct (id_wrapper r h) as [[v h1]|] eqn:Hcall; [| discriminate].
    destruct (run_ops ops h1) as [[results' h2]|] eqn:Hrest; [| discriminate].
    injection Hrun as <- <-. cbn [returned_by List.filter].
    destruct (Nat.eqb r g); cbn [length]; now rewrite (IH h1 results' h2).
Qed.

(** A client that calls only closures it has runs to its end. *)
Lemma run_ops_returns (ops : list gen_op) :
  forall h : gmap nat gen_env,
    well_scoped ops (dom h) = true -> is_Some (run_ops ops h).
Proof.
  induction ops as [|[start' | r] ops IH]; intros h Hscoped.
  - cbn. eauto.
  - cbn [run_ops well_scoped] in *. cbn [getIdGeneratorFunction].
    destruct (IH (<[fresh (dom h) := {| startFrom := start'; count := VNum (Int 0);
                                        flag := VUndefined |}]> h))
      as [[results h2] ->]; [| eauto].
    now rewrite dom_insert_L.
  - cbn [run_ops well_scoped] in *.
    apply andb_prop in Hscoped as [Hr Hrest].
    apply bool_decide_eq_true_1 in Hr.
    pose proof Hr as Hsome. apply elem_of_dom in Hsome as [env Henv].
    unfold id_wrapper. rewrite Henv. destruct (wrapper_body env) as [v env'].
    destruct (IH (<[r := env']> h)) as [[results h2] ->]; [| eauto].
    rewrite dom_insert_L.
    now rewrite (subseteq_union_1_L {[r]} (dom h))
      by now apply singleton_subseteq_l.
Qed.

(** Below 2^53 the counter is the number of its increments. *)
Lemma counter_exact (n : nat) :
  Z.of_nat n < 2 ^ 53 -> counter n = Int (Z.of_nat n).
Proof.
  induction n as [|n IH]; intros Hn; [reflexivity |].
  cbn [counter]. rewrite IH by lia.
  rewrite Int_add by lia. f_equal. lia.
Qed.

(** From an integer, while the values stay below 2^53 in magnitude, call
    number [n + 1] returns the integer [z + n]. *)
Lemma start_plus_counter (z : Z) (n : nat) :
  safe_integer z -> Z.of_nat n < 2 ^ 53 -> safe_integer (z + Z.of_nat n) ->
  num_add (Int z) (counter n) = Int (z + Z.of_nat n).
Proof.
  unfold safe_integer. intros Hz Hn Hsum.
  rewrite counter_exact by exact Hn. apply Int_add; lia.
Qed.

(** Adding zero to a number gives the number back, [+0] for [-0]. *)
Lemma num_add_zero (s : number) :
  (s <> NegZero -> num_add s (Int 0) = s)
  /\ num_same_value_zero (num_add s (Int 0)) s = true.
Proof.
  assert (Hspec : Prim2SF (num_add s (Int 0))
                  = SFadd prec emax (Prim2SF s) (S754_zero false))
    by apply add_spec.
  split.
  - intros Hs. rewrite <- (SF2Prim_Prim2SF (num_add s (Int 0))), Hspec.
    rewrite <- (SF2Prim_Prim2SF s) at 2.
    destruct (Prim2SF s) as [[|]| | |] eqn:E; try reflexivity.
    exfalso. apply Hs. now rewrite <- (SF2Prim_Prim2SF s), E.
  - unfold num_same_value_zero, PrimFloat.is_nan, num_eqb.
    rewrite !FloatAxioms.eqb_spec, Hspec.
    destruct (Prim2SF s) as [[|]|[|]| |sign m e]; try reflexivity.
    cbn [SFadd].
    assert (E : SFeqb (S754_finite sign m e) (S754_finite sign m e) = true)
      by (apply SFeqb_true; auto).
    now rewrite E, orb_true_r.
Qed.

(** C7, as the code has it: the closure returned by
    [getIdGeneratorFunction(startFrom)], for a number [startFrom], is a
    new closure of the store, and a client that calls only closures it
    has runs to its end.  Whatever other generators are created and
    called in between, the generator returns once for each of its calls;
    its first call returns [startFrom] ([+0] when [startFrom] is [-0]),
    and its call number [n + 1] returns [startFrom + c], where [c] is the
    private counter: [0] increased [n] times by one, with the sums of the
    doubles.  When [startFrom] is an integer [z] and the values stay
    below 2^53 in magnitude, call number [n + 1] returns the integer
    [z + n], and each call returns what the call before it returned, plus
    one. *)
Theorem generator_counts_from_start (start : number) (h : gmap nat gen_env)
    (ops : list gen_op) :
  let g := fst (getIdGeneratorFunction (VNum start) h) in
  let h1 := snd (getIdGeneratorFunction (VNum start) h) in
  h !! g = None
  /\ h1 !! g = Some {| startFrom := VNum start; count := VNum (Int 0);
                       flag := VUndefined |}
  /\ (well_scoped ops (dom h1) = true -> is_Some (run_ops ops h1))
  /\ forall results h2,
       run_ops ops h1 = Some (results, h2) ->
       length (returned_by g results)
       = length (List.filter (fun op => match op with
                                        | Next r => Nat.eqb r g
                                        | Create _ => false
                                        end) ops)
       /\ (forall v, returned_by g results !! 0%nat = Some v ->
                     same_value_zero v (VNum start) = true
                     /\ (start <> NegZero -> v = VNum start))
       /\ (forall n v,
             returned_by g results !! n = Some v ->
             v = VNum (num_add start (counter n)))
       /\ (forall (z : Z) (n : nat) v,
             start = Int z ->
             safe_integer z -> Z.of_nat n < 2 ^ 53 ->
             safe_integer (z + Z.of_nat n) ->
             returned_by g results !! n = Some v ->
             v = VNum (Int (z + Z.of_nat n)))
       /\ (forall (z : Z) (n : nat) v v',
             start = Int z ->
             safe_integer z -> Z.of_nat (S n) < 2 ^ 53 ->
             safe_integer (z + Z.of_nat n) ->
             safe_integer (z + Z.of_nat (S n)) ->
             returned_by g results !! n = Some v ->
             returned_by g results !! S n = Some v' ->
             v' = js_add v (VNum (Int 1))).
Proof.
  intros g h1.
  split; [apply getIdGeneratorFunction_fresh |].
  split; [apply lookup_insert_eq |].
  split; [apply run_ops_returns |].
  intros results h2 Hrun.
  assert (Hvalues : forall n v,
             returned_by g results !! n = Some v ->
             v = VNum (num_add start (counter n))).
  { intros n v Hn.
    rewrite (run_ops_any_start (VNum start) g ops h1 0 results h2) in Hn.
    - rewrite list_lookup_fmap in Hn.
      destruct (seq 0 (length (returned_by g results)) !! n) as [i|] eqn:Hi;
        [| discriminate].
      apply lookup_seq in Hi as [-> _].
      cbn [fmap option_fmap option_map Nat.add] in Hn.
      injection Hn as <-. reflexivity.
    - apply lookup_insert_eq.
    - exact Hrun. }
  split; [exact (run_ops_count g ops h1 results h2 Hrun) |].
  split; [| split; [exact Hvalues | split]].
  - intros v Hv. rewrite (Hvalues _ _ Hv). cbn [counter same_value_zero].
    destruct (num_add_zero start) as [Heq Hsame].
    split; [exact Hsame | intros Hs; now rewrite (Heq Hs)].
  - intros z n v -> Hz Hn Hsum Hv.
    now rewrite (Hvalues _ _ Hv), start_plus_counter.
  - intros z n v v' -> Hz Hn Hsum Hnext Hv Hv'.
    rewrite (Hvalues _ _ Hv), (Hvalues _ _ Hv'), !start_plus_counter
      by (assumption || lia).
    unfold js_add. cbn [to_primitive is_string orb to_number].
    unfold safe_integer in *. rewrite Int_add by lia. do 2 f_equal. lia.
Qed.

End GeneratorProperties.

(** * Further properties *)

(** ** getComposition *)

Section CompositionProperties.

Context {W : Type}.

(** X1: the composition of user functions calls [g] on the first argument and
    then [f] on what [g] returned; it ends as the call of [f] ends, and
    the arguments after the first are never used. *)
Theorem getComposition_calls_g_then_f (f g : jsfun W) (x y : value)
    (rest : list value) (s : ext W) (w : W) :
  fn_body g [x] (world s) = (Normal y, w) ->
  getComposition (invoke f) (invoke g) (x :: rest) s =
  (fst (fn_body f [y] w),
   after_call f (after_call g s [x] (Normal y) w) [y]
     (fst (fn_body f [y] w)) (snd (fn_body f [y] w))).
Proof.
  intros Hg. unfold getComposition. cbn [array_get nth]. run_js.
  rewrite Hg. run_js.
  now destruct (fn_body f [y] w) as [r w'].
Qed.

(** X2: when [g] throws, the composition throws the same value and [f] is not
    called. *)
Theorem getComposition_inner_failure (f g : jsfun W) (x e : value)
    (rest : list value) (s : ext W) (w : W) :
  fn_body g [x] (world s) = (Throw e, w) ->
  getComposition (invoke f) (invoke g) (x :: rest) s =
  (Throw e, after_call g s [x] (Throw e) w).
Proof.
  intros Hg. unfold getComposition. cbn [array_get nth]. run_js.
  now rewrite Hg.
Qed.

(** X3: composition is associative, whatever the three functions do. *)
Theorem getComposition_assoc (f g h : callable W) (args : list value) (s : ext W) :
  getComposition f (getComposition g h) args s =
  getComposition (getComposition f g) h args s.
Proof.
  unfold getComposition. cbn [array_get nth]. unfold bind.
  now destruct (h [array_get args 0] s) as [[z|e] s1].
Qed.

End CompositionProperties.

(** ** getPolynom *)

Section PolynomOnIntegers.

Context `{Host}.


End PolynomOnIntegers.

(** ** memoize *)

Section MemoizeFurther.

Context {W : Type}.
Variable func : jsfun W.

Lemma map_set_miss (c : cache) (x v : value) :
  map_has c x = false -> map_set c x v = c ++ [(normalize_key x, v)].
Proof.
  induction c as [|[k u] c IH]; cbn [map_has map_set app]; [reflexivity |].
  intros Hmiss. apply orb_false_elim in Hmiss as [Hk Hc].
  now rewrite Hk, IH.
Qed.

Lemma run_calls_stored (calls : list (list value)) :
  forall (c : cache) (s : ext W) rs c' s',
    run_calls (memoize func) calls (c, s) = (rs, (c', s')) ->
    exists new,
      trace s' = trace s ++ new
      /\ c' = c ++ stored new
      /\ length (stored new) = length (List.filter returned new).
Proof.
  induction calls as [|args rest IH]; intros c s rs c' s' Hrun.
  - cbn in Hrun. injection Hrun as <- <- <-. exists [].
    rewrite !app_nil_r. now cbn.
  - cbn [run_calls] in Hrun.
    destruct (memoize_steps func c s args) as (r & c1 & s1 & Hcode & Hstep).
    rewrite Hcode in Hrun.
    destruct (run_calls (memoize func) rest (c1, s1)) as [rs' [c2 s2]] eqn:Hrest.
    injection Hrun as <- <- <-.
    destruct (IH _ _ _ _ _ Hrest) as (new & Htrace & Hcache & Hlen).
    destruct Hstep as [Hhit | v w Hmiss Hbody | e w Hmiss Hbody].
    + exists new. now split.
    + eexists (_ :: new).
      split; [rewrite Htrace; cbn; now rewrite <- app_assoc |].
      rewrite Hcache, (map_set_miss c _ v Hmiss), <- app_assoc.
      split; [reflexivity |]. unfold stored in Hlen |- *.
      cbn [flat_map call_args outcome app length List.filter returned].
      now rewrite Hlen.
    + eexists (_ :: new).
      split; [rewrite Htrace; cbn; now rewrite <- app_assoc |].
      split; [exact Hcache | exact Hlen].
Qed.

(** X6: for a [func] that acts on the world only, so that it does not
    call the memoized function back.  Any sequence of calls of the
    memoized function ends, and the cache is then the cache it started
    from followed by one entry for each call of [func] that returned, in
    the order of the calls: the key, the negative zero stored as the
    positive one, and the value returned.  No entry is dropped or
    changed. *)
Theorem memoize_cache_size (depth : nat) (calls : list (list value))
    (c : cache) (s : ext W) :
  exists rs c' s' new,
    run_reentrant (S depth) (reentrant_of func) calls (c, s) = Some (rs, (c', s'))
    /\ trace s' = trace s ++ new
    /\ c' = c ++ stored new
    /\ length c' = (length c + length (List.filter returned new))%nat.
Proof.
  rewrite (run_reentrant_of func).
  destruct (run_calls (memoize func) calls (c, s)) as [rs [c' s']] eqn:Hrun.
  destruct (run_calls_stored calls c s rs c' s' Hrun) as (new & Htrace & Hcache & Hlen).
  exists rs, c', s', new. split; [reflexivity |]. split; [exact Htrace |].
  split; [exact Hcache |]. now rewrite Hcache, length_app, Hlen.
Qed.

Lemma run_calls_hits (args : list value) (n : nat) (c : cache) (s : ext W) :
  map_has c (array_get args 0) = true ->
  run_calls (memoize func) (replicate n args) (c, s) =
  (replicate n (Normal (map_get c (array_get args 0))), (c, s)).
Proof.
  intros Hhit. induction n as [|n IH]; [reflexivity |].
  cbn [replicate run_calls]. rewrite (memoize_hit func c s args Hhit).
  now rewrite IH.
Qed.

(** X7: for a [func] that acts on the world only, so that it does not
    call the memoized function back.  Calls repeated with the same
    arguments: when the first one calls [func] and [func] returns, all of
    them return that value and [func] is called once.  Without argument
    the key is [undefined]. *)
Theorem memoize_repeated_calls (depth : nat) (args : list value) (n : nat)
    (c : cache) (s : ext W) (v : value) (w : W) :
  map_has c (array_get args 0) = false ->
  fn_body func [array_get args 0] (world s) = (Normal v, w) ->
  run_reentrant (S depth) (reentrant_of func) (replicate (S n) args) (c, s) =
  Some (replicate (S n) (Normal v),
        (map_set c (array_get args 0) v,
         after_call func s [array_get args 0] (Normal v) w)).
Proof.
  intros Hmiss Hbody. rewrite (run_reentrant_of func). f_equal.
  cbn [replicate run_calls].
  rewrite (memoize_miss func c s args Hmiss), Hbody.
  rewrite run_calls_hits.
  - now rewrite map_get_set, same_value_zero_refl.
  - now rewrite map_has_set, same_value_zero_refl, orb_true_r.
Qed.

Variable f : list value -> value.
Hypothesis func_computes : computes func f.
Hypothesis f_same_value_zero :
  forall a b, same_value_zero a b = true -> f [a] = f [b].

Lemma map_get_sound (c : cache) (x : value) :
  Forall (fun kv => snd kv = f [fst kv]) c ->
  map_has c x = true -> map_get c x = f [x].
Proof.
  induction 1 as [|[k v] c Hkv _ IH]; cbn [map_has map_get]; [discriminate |].
  destruct (same_value_zero k x) eqn:E; [| exact IH].
  intros _. cbn in Hkv. rewrite Hkv. now apply f_same_value_zero.
Qed.

Lemma map_set_sound (c : cache) (x : value) :
  Forall (fun kv => snd kv = f [fst kv]) c ->
  Forall (fun kv => snd kv = f [fst kv]) (map_set c x (f [x])).
Proof.
  induction 1 as [|[k v] c Hkv Hc IH]; cbn [map_set].
  - constructor; [| constructor]. cbn. symmetry. apply f_same_value_zero.
    now rewrite same_value_zero_normalize, same_value_zero_refl.
  - destruct (same_value_zero k x) eqn:E.
    + constructor; [| exact Hc]. cbn. symmetry. now apply f_same_value_zero.
    + now constructor.
Qed.

Lemma run_calls_sound (calls : list (list value)) :
  forall (c : cache) (s : ext W) rs c' s',
    Forall (fun kv => snd kv = f [fst kv]) c ->
    run_calls (memoize func) calls (c, s) = (rs, (c', s')) ->
    rs = map (fun args => Normal (f [array_get args 0])) calls
    /\ world s' = world s.
Proof.
  induction calls as [|args rest IH]; intros c s rs c' s' Hc Hrun.
  - cbn in Hrun. now injection Hrun as <- <- <-.
  - cbn [run_calls] in Hrun.
    destruct (memoize_steps func c s args) as (r & c1 & s1 & Hcode & Hstep).
    rewrite Hcode in Hrun.
    destruct (run_calls (memoize func) rest (c1, s1)) as [rs' [c2 s2]] eqn:Hrest.
    injection Hrun as <- <- <-. cbn [map].
    destruct Hstep as [Hhit | v w Hmiss Hbody | e w Hmiss Hbody].
    + destruct (IH _ _ _ _ _ Hc Hrest) as [-> Hworld].
      now rewrite (map_get_sound c _ Hc Hhit).
    + rewrite func_computes in Hbody. injection Hbody as <- <-.
      destruct (IH _ _ _ _ _ (map_set_sound c _ Hc) Hrest) as [-> Hworld].
      split; [reflexivity | exact Hworld].
    + rewrite func_computes in Hbody. discriminate.
Qed.

(** X8: memoizing a pure function that cannot tell equal keys apart does not
    change its results: every call returns what [func] computes from its
    first argument, and the world stays as it is. *)
Theorem memoize_transparent (calls : list (list value)) (s : ext W) :
  fst (run_calls (memoize func) calls (initial (memoize func), s))
  = map (fun args => Normal (f [array_get args 0])) calls
  /\ world (snd (snd (run_calls (memoize func) calls (initial (memoize func), s))))
     = world s.
Proof.
  destruct (run_calls (memoize func) calls (initial (memoize func), s))
    as [rs [c' s']] eqn:Hrun.
  apply (run_calls_sound calls [] s rs c' s'); [constructor | exact Hrun].
Qed.

End MemoizeFurther.

(** ** retry *)

Section RetryFurther.

Context `{Host}.
Context {W : Type}.
Variable func : jsfun W.

(** X9: whatever [attempts] is and whatever [func] does, [retry] calls [func]
    without argument at least once and at most three times, and calls
    nothing else; when it returns, it returns [func] itself or
    [attempts], never a result of [func]. *)
Theorem retry_call_bounds (attempts : value) (s : ext W) :
  exists new,
    trace (snd (retry func attempts s)) = trace s ++ new
    /\ (1 <= length new <= 3)%nat
    /\ Forall (fun c => callee c = fn_ref func /\ call_args c = []) new
    /\ forall v, fst (retry func attempts s) = Normal v ->
                 v = VFun (fn_ref func) \/ v = attempts.
Proof.
  unfold retry. run_js.
  destruct (fn_body func [] (world s)) as [[v1|e1] w1]; run_js.
  - eexists. split; [reflexivity |]. split; [cbn; lia |].
    split; [repeat constructor |].
    intros v E. injection E as <-. now left.
  - destruct (strict_eq (VNum (Int 0)) attempts) eqn:Hzero; run_js.
    + eexists. split; [reflexivity |]. split; [cbn; lia |].
      split; [repeat constructor |].
      intros v E. injection E as <-. now right.
    + destruct (fn_body func [] w1) as [[v2|e2] w2]; run_js.
      * eexists. split; [rewrite <- app_assoc; reflexivity |].
        split; [cbn; lia |]. split; [repeat constructor |].
        intros v E. injection E as <-. now left.
      * rewrite Hzero. run_js.
        destruct (fn_body func [] w2) as [[v3|e3] w3]; run_js.
        -- eexists. split; [rewrite <- !app_assoc; reflexivity |].
           split; [cbn; lia |]. split; [repeat constructor |].
           intros v E. injection E as <-. now left.
        -- eexists. split; [rewrite <- !app_assoc; reflexivity |].
           split; [cbn; lia |]. split; [repeat constructor |].
           intros v E. discriminate.
Qed.

End RetryFurther.

(** ** logger *)

Section LoggerFurther.

Context `{Host}.
Context {W : Type}.
Variables func logFunc : jsfun W.

Lemma last_argument (a b : value) (mid : list value) :
  array_get (a :: mid ++ [b]) (length (a :: mid ++ [b]) - 1) = b.
Proof.
  unfold array_get. cbn [length]. rewrite Nat.sub_1_r. cbn [Nat.pred].
  rewrite length_app. cbn [length].
  replace (length mid + 1)%nat with (S (length mid)) by lia. cbn [nth].
  rewrite app_nth2 by lia.
  now rewrite Nat.sub_diag.
Qed.


(** X15: when [func] throws in a call with an array and a last argument, the
    first line has been written, the second line is not, and the
    exception goes to the caller. *)
Theorem logger_failure_not_logged (addr : nat) (items mid : list value)
    (b e : value) (s : ext W) (w1 w2 : W) (u1 : value) :
  let args := VArr addr items :: mid ++ [b] in
  let starts := VStr (fn_name (fn_ref func) ++ "([" ++ join "," (map quote_item items)
                      ++ "]," ++ to_string (js_plus b) ++ ") starts")%string in
  fn_body logFunc [starts] (world s) = (Normal u1, w1) ->
  fn_body func args w1 = (Throw e, w2) ->
  logger func logFunc args s =
  (Throw e,
   {| world := w2;
      trace := trace s ++ [mkCall (fn_ref logFunc) [starts] (Normal u1);
                           mkCall (fn_ref func) args (Throw e)] |}).
Proof.
  intros args starts Hstarts Hfunc.
  assert (Hlen : (2 <= length args)%nat).
  { unfold args. cbn [length]. rewrite length_app. cbn [length]. lia. }
  unfold logger, logger_wrapper.
  destruct (Nat.eqb_spec (length args) 1) as [Hone | _]; [lia |].
  rewrite (slice_all_but_last_head args Hlen).
  rewrite !(last_argument (VArr addr items) b mid : array_get args (length args - 1) = b).
  change (array_get args 0) with (VArr addr items).
  cbn [call_map]. run_js.
  fold starts. rewrite Hstarts. run_js. fold args. rewrite Hfunc.
  now rewrite <- !app_assoc.
Qed.

(** X16: when the log function throws on the first line, [func] is not
    called, with one argument as with an array and a last argument. *)
Theorem logger_sink_failure (a e : value) (addr : nat) (items mid : list value)
    (b : value) (s : ext W) (w : W) :
  let starts1 := VStr (fn_name (fn_ref func) ++ "(" ++ join "," [a] ++ ") starts")%string in
  let args := VArr addr items :: mid ++ [b] in
  let starts := VStr (fn_name (fn_ref func) ++ "([" ++ join "," (map quote_item items)
                      ++ "]," ++ to_string (js_plus b) ++ ") starts")%string in
  (fn_body logFunc [starts1] (world s) = (Throw e, w) ->
   logger func logFunc [a] s = (Throw e, after_call logFunc s [starts1] (Throw e) w))
  /\ (fn_body logFunc [starts] (world s) = (Throw e, w) ->
      logger func logFunc args s = (Throw e, after_call logFunc s [starts] (Throw e) w)).
Proof.
  intros starts1 args starts. split; intros Hstarts.
  - unfold logger, logger_wrapper. cbn [length Nat.eqb]. run_js.
    fold starts1. now rewrite Hstarts.
  - assert (Hlen : (2 <= length args)%nat).
    { unfold args. cbn [length]. rewrite length_app. cbn [length]. lia. }
    unfold logger, logger_wrapper.
    destruct (Nat.eqb_spec (length args) 1) as [Hone | _]; [lia |].
    rewrite (slice_all_but_last_head args Hlen).
    rewrite !(last_argument (VArr addr items) b mid : array_get args (length args - 1) = b).
    change (array_get args 0) with (VArr addr items).
  cbn [call_map]. run_js.
    fold starts. now rewrite Hstarts.
Qed.

End LoggerFurther.

(** ** partialUsingArguments *)

Section PartialFurther.

Context `{Host}.
Context {W : Type}.
Variable fn : jsfun W.

(** X18: an argument that is [undefined] or [null] leaves nothing in the
    result, bound or given at the call. *)
Theorem partialUsingArguments_nullish (v : value) (l1 l2 other : list value)
    (s : ext W) :
  is_nullish v = true ->
  partialUsingArguments fn (l1 ++ v :: l2) other s =
    partialUsingArguments fn (l1 ++ l2) other s
  /\ partialUsingArguments fn other (l1 ++ v :: l2) s =
      partialUsingArguments fn other (l1 ++ l2) s.
Proof.
  intros Hv.
  assert (E : join "" (l1 ++ v :: l2) = join "" (l1 ++ l2)).
  { rewrite !join_empty_app, join_empty_cons, Hv. reflexivity. }
  unfold partialUsingArguments. now rewrite E.
Qed.

(** X19: on four strings the closure returns what the function of the
    documentation returns on them, wherever the arguments are cut, and it
    does so without calling it. *)
Theorem partialUsingArguments_four_strings (s1 s2 s3 s4 : string) (k : nat)
    (s : ext unit) :
  let args := [VStr s1; VStr s2; VStr s3; VStr s4] in
  partialUsingArguments sum4 (firstn k args) (skipn k args) s =
  (fst (fn_body sum4 args (world s)), s).
Proof.
  intros args. unfold partialUsingArguments, ret.
  rewrite <- join_empty_app, firstn_skipn.
  cbn. now rewrite !append_assoc.
Qed.

End PartialFurther.

(** ** getIdGeneratorFunction *)

Section GeneratorFurther.

Context `{Host}.

(** X20: whatever the value [startFrom] is, a client that calls only
    closures it has runs to its end, the generator returns once for each of
    its calls, and its call number [n + 1] returns [startFrom + c], the
    [+] of JavaScript, where [c] is the private counter: [0] increased [n]
    times by one, with the sums of the doubles.  For a string this is the
    string followed by the text of [c]. *)
Theorem generator_any_start (start : value) (h : gmap nat gen_env)
    (ops : list gen_op) :
  let g := fst (getIdGeneratorFunction start h) in
  let h1 := snd (getIdGeneratorFunction start h) in
  well_scoped ops (dom h1) = true ->
  exists results h2,
    run_ops ops h1 = Some (results, h2)
    /\ length (returned_by g results)
       = length (List.filter (fun op => match op with
                                        | Next r => Nat.eqb r g
                                        | Create _ => false
                                        end) ops)
    /\ forall n v,
         returned_by g results !! n = Some v ->
         v = js_add start (VNum (counter n))
         /\ forall p, start = VStr p ->
                      v = VStr (p ++ number_to_string (counter n))%string.
Proof.
  intros g h1 Hstore.
  destruct (run_ops_returns ops h1 Hstore) as [[results h2] Hrun].
  exists results, h2. split; [exact Hrun |].
  split; [exact (run_ops_count g ops h1 results h2 Hrun) |].
  intros n v Hn.
  rewrite (run_ops_any_start start g ops h1 0 results h2) in Hn.
  - rewrite list_lookup_fmap in Hn.
    destruct (seq 0 (length (returned_by g results)) !! n) as [i|] eqn:Hi;
      [| discriminate].
    apply lookup_seq in Hi as [-> _].
    cbn [fmap option_fmap option_map Nat.add] in Hn. injection Hn as <-.
    split; [reflexivity |]. now intros p ->.
  - apply lookup_insert_eq.
  - exact Hrun.
Qed.

(** X21: from an integer [z], a client that calls only closures it has
    and is short enough for the values to stay below 2^53 gets integers
    that increase strictly: the generator never returns the same value
    twice, whatever other generators are created and called in
    between. *)
Theorem generator_strictly_increasing (z : Z) (h : gmap nat gen_env)
    (ops : list gen_op) :
  let g := fst (getIdGeneratorFunction (VNum (Int z)) h) in
  let h1 := snd (getIdGeneratorFunction (VNum (Int z)) h) in
  safe_integer z ->
  Z.of_nat (length ops) < 2 ^ 53 ->
  safe_integer (z + Z.of_nat (length ops)) ->
  well_scoped ops (dom h1) = true ->
  exists results h2,
    run_ops ops h1 = Some (results, h2)
    /\ forall i j vi vj,
         (i < j)%nat ->
         returned_by g results !! i = Some vi ->
         returned_by g results !! j = Some vj ->
         vi <> vj
         /\ exists a b, vi = VNum (Int a) /\ vj = VNum (Int b) /\ a < b
                        /\ safe_integer a /\ safe_integer b.
Proof.
  intros g h1 Hz Hlen Hroom Hscoped.
  destruct (run_ops_returns ops h1 Hscoped) as [[results h2] Hrun].
  exists results, h2. split; [exact Hrun |].
  intros i j vi vj Hij Hi Hj.
  assert (Hcount : (length (returned_by g results) <= length ops)%nat).
  { rewrite (run_ops_count g ops h1 results h2 Hrun). apply List.filter_length_le. }
  assert (Hjlen : (j < length (returned_by g results))%nat)
    by (apply lookup_lt_is_Some; eauto).
  rewrite (run_ops_any_start (VNum (Int z)) g ops h1 0 results h2) in Hi, Hj;
    [| apply lookup_insert_eq | exact Hrun | apply lookup_insert_eq | exact Hrun].
  rewrite list_lookup_fmap in Hi, Hj.
  destruct (seq 0 (length (returned_by g results)) !! i) as [i'|] eqn:Ei;
    [| discriminate].
  destruct (seq 0 (length (returned_by g results)) !! j) as [j'|] eqn:Ej;
    [| discriminate].
  apply lookup_seq in Ei as [-> _]. apply lookup_seq in Ej as [-> _].
  cbn [fmap option_fmap option_map Nat.add] in Hi, Hj.
  injection Hi as <-. injection Hj as <-.
  unfold safe_integer in *.
  unfold js_add. cbn [to_primitive is_string orb to_number].
  rewrite !start_plus_counter by (unfold safe_integer; lia).
  split.
  - intros E. injection E as E. apply Int_injective in E; lia.
  - exists (z + Z.of_nat i), (z + Z.of_nat j). repeat split; lia.
Qed.

End GeneratorFurther.

(** * The properties at work *)

#[local] Existing Instance integer_host.

(** ** retry *)

(** C1: [retry] does not do what it is documented to do.  When the first
    call of [func] returns [2], [retry] returns the function [func] and
    not [2]; when [func] always throws and [attempts] is [0], [retry]
    returns [0] and the exception is lost; when [func] always throws and
    [attempts] is [1], [func] is called three times. *)
Theorem retry_misses_its_contract :
  retry always_two (VNum (Int 2)) (start tt) =
    (Normal (VFun (fn_ref always_two)),
     after_call always_two (start tt) [] (Normal (VNum (Int 2))) tt)
  /\ retry always_fails (VNum (Int 0)) (start tt) =
       (Normal (VNum (Int 0)),
        after_call always_fails (start tt) [] (Throw test_error) tt)
  /\ (exists s, retry always_fails (VNum (Int 1)) (start tt) = (Throw test_error, s)
                /\ length (trace s) = 3%nat).
Proof.
  split; [reflexivity |]. split; [reflexivity |].
  eexists. split; reflexivity.
Qed.

(** The example of the documentation: [retry] returns the function, and
    the call [retryer()] that is documented to give [2] throws. *)
Lemma retry_documented_example :
  exists s,
    retry odd_fails (VNum (Int 2)) (start 0) = (Normal (VFun (fn_ref odd_fails)), s)
    /\ world s = 2
    /\ fst (invoke odd_fails [] s) = Throw test_error.
Proof. eexists. repeat split. Qed.

(** ** partialUsingArguments *)

(** C2: the closure made for [sum2] and the bound argument [1], called
    with [2], returns the string ["12"] and calls nothing, whereas
    [sum2(1, 2)] is [3]. *)
Theorem partialUsingArguments_never_calls_fn :
  partialUsingArguments sum2 [VNum (Int 1)] [VNum (Int 2)] (start tt) =
    (Normal (VStr "12"), start tt)
  /\ invoke sum2 [VNum (Int 1); VNum (Int 2)] (start tt) =
       (Normal (VNum (Int 3)),
        after_call sum2 (start tt) [VNum (Int 1); VNum (Int 2)]
          (Normal (VNum (Int 3))) tt).
Proof. split; reflexivity. Qed.

(** ** logger *)

(** C3: called with the single argument [1], the wrapper of [inc] writes
    the line that ends in [ends] before it calls [inc]. *)
Theorem logger_ends_before_call :
  logger inc sink [VNum (Int 1)] (start []) =
    (Normal (VNum (Int 2)),
     {| world := ["inc(1) starts"; "inc(1) ends"];
        trace := [mkCall (fn_ref sink) [VStr "inc(1) starts"] (Normal VUndefined);
                  mkCall (fn_ref sink) [VStr "inc(1) ends"] (Normal VUndefined);
                  mkCall (fn_ref inc) [VNum (Int 1)] (Normal (VNum (Int 2)))] |}).
Proof. reflexivity. Qed.

Lemma logger_type_error_witness :
  logger inc sink [] (start []) = (Throw type_error, start [])
  /\ logger inc sink [VNum (Int 1); VNum (Int 2)] (start []) =
       (Throw type_error, start []).
Proof.
  split.
  - apply logger_type_error. left. reflexivity.
  - apply logger_type_error. right. split; [cbn; lia | reflexivity].
Defined.

(** ** getPolynom *)

(** C4: with four coefficients the result is [null], not the polynomial of
    the first three. *)
Lemma getPolynom_four_coefficients :
  ~ ignores_extra_coefficients
      [VNum (Int 1); VNum (Int 2); VNum (Int 3); VNum (Int 4)].
Proof. intros Hsame. exact Hsame. Qed.

Lemma getPolynom_more_than_three_witness :
  (3 < length [VNum (Int 1); VNum (Int 2); VNum (Int 3); VNum (Int 4)])%nat
  /\ getPolynom [VNum (Int 1); VNum (Int 2); VNum (Int 3); VNum (Int 4)] = PolyNull.
Proof.
  split; [cbn; lia |].
  apply getPolynom_more_than_three. cbn. lia.
Defined.



Example getPolynom_documented :
  (exists q, getPolynom [VNum (Int 2); VNum (Int 3); VNum (Int 5)] = PolyFun q
             /\ q [VNum (Int 1)] = VNum (Int 10))
  /\ (exists q, getPolynom [VNum (Int 1); VNum (Int (-3))] = PolyFun q
                /\ q [VNum (Int 5)] = VNum (Int 2))
  /\ (exists q, getPolynom [VNum (Int 8)] = PolyFun q
                /\ q [VStr "anything"] = VNum (Int 8)).
Proof. repeat split; eexists; split; reflexivity. Qed.

(** ** memoize *)



Lemma memoize_failure_not_cached_witness :
  let failed :=
    after_call (counting 1) (start 0%nat) [VNum (Int 5)] (Throw test_error) 1%nat in
  let later :=
    after_call (counting 1) failed [VNum (Int 6)] (Normal (VNum (Int 2))) 2%nat in
  map_has [] (VNum (Int 5)) = false
  /\ fn_body (counting 1) [VNum (Int 5)] 0%nat = (Throw test_error, 1%nat)
  /\ memoize_reentrant 1 (reentrant_of (counting 1)) [VNum (Int 5)] ([], start 0%nat) =
       Some (Throw test_error, ([], failed))
  /\ run_reentrant 1 (reentrant_of (counting 1)) [[VNum (Int 6)]] ([], failed) =
       Some ([Normal (VNum (Int 2))], ([(VNum (Int 6), VNum (Int 2))], later))
  /\ exists rs c' s',
       run_reentrant 1 (reentrant_of (counting 1)) [[VNum (Int 6)]] ([], failed)
       = Some (rs, (c', s'))
       /\ map_has c' (VNum (Int 5)) = false
       /\ exists r c'' s'',
            memoize_reentrant 1 (reentrant_of (counting 1)) [VNum (Int 5)] (c', s')
            = Some (r, (c'', s''))
            /\ trace s'' = trace s' ++ [mkCall (fn_ref (counting 1)) [VNum (Int 5)] r].
Proof.
  intros failed later.
  destruct (memoize_failure_not_cached (counting 1) 0 [] (start 0%nat)
              (VNum (Int 5)) test_error 1%nat eq_refl eq_refl) as [Hthrows Hlater].
  split; [reflexivity |]. split; [reflexivity |]. split; [exact Hthrows |].
  split; [reflexivity |].
  apply (Hlater [[VNum (Int 6)]]). repeat constructor.
Defined.

(** C8 as it is stated does not hold.  The function [nested_fails] calls
    the memoized function back with its argument and then throws: the
    call of the memoized function with [5] throws, yet the cache has an
    entry for [5] afterwards, and the next call with [5] returns the
    value of that entry and calls nothing. *)
Lemma memoize_failure_cached :
  exists st,
    memoize_reentrant 2 nested_fails [VNum (Int 5)] ([], start false)
    = Some (Throw test_error, st)
    /\ fst st = [(VNum (Int 5), VNum (Int 2))]
    /\ trace (snd st) =
         [mkCall (re_ref nested_fails) [VNum (Int 5)] (Normal (VNum (Int 2)));
          mkCall (re_ref nested_fails) [VNum (Int 5)] (Throw test_error)]
    /\ memoize_reentrant 2 nested_fails [VNum (Int 5)] st
       = Some (Normal (VNum (Int 2)), st).
Proof. eexists. repeat split. Qed.

Lemma memoize_keys_same_value_zero_witness :
  let calls :=
    [[VNum (Int 1)]; [VNum (Int 2)]; [VStr "1"]; [VNum NaN]; [VNum NegZero];
     [VNum NaN]; [VNum (Int 0)]; [VNum (Int 1)]] in
  let c :=
    [(VNum (Int 1), VNum (Int 1)); (VNum (Int 2), VNum (Int 2));
     (VStr "1", VNum (Int 3)); (VNum NaN, VNum (Int 4));
     (VNum (Int 0), VNum (Int 5))] in
  exists s,
    run_reentrant 1 (reentrant_of (counting 0)) calls ([], start 0%nat) =
      Some ([Normal (VNum (Int 1)); Normal (VNum (Int 2)); Normal (VNum (Int 3));
             Normal (VNum (Int 4)); Normal (VNum (Int 5)); Normal (VNum (Int 4));
             Normal (VNum (Int 5)); Normal (VNum (Int 1))], (c, s))
    /\ length (trace s) = 5%nat
    /\ memoize_reentrant 1 (reentrant_of (counting 0)) [VNum NaN] (c, s)
       = Some (Normal (VNum (Int 4)), (c, s))
    /\ memoize_reentrant 1 (reentrant_of (counting 0)) [VNum NegZero] (c, s)
       = Some (Normal (VNum (Int 5)), (c, s))
    /\ (forall r c' s',
          memoize_reentrant 1 (reentrant_of (counting 0)) [VStr "2"] (c, s)
          = Some (r, (c', s')) ->
          exists new,
            trace s' = trace s ++ new
                       ++ [mkCall (re_ref (reentrant_of (counting 0))) [VStr "2"] r]).
Proof.
  intros calls c.
  destruct (memoize_keys_same_value_zero (counting 0) 0 (reentrant_of (counting 0)))
    as (_ & _ & Hhit & Hmiss & _).
  eexists. split; [reflexivity |]. split; [reflexivity |].
  split; [| split].
  - apply (Hhit [(VNum (Int 1), VNum (Int 1)); (VNum (Int 2), VNum (Int 2));
                 (VStr "1", VNum (Int 3))]
             [(VNum (Int 0), VNum (Int 5))] (VNum NaN) (VNum (Int 4)) (VNum NaN)).
    + reflexivity.
    + intros k' v' [E | [E | [E | []]]]; injection E as <- <-; reflexivity.
  - apply (Hhit [(VNum (Int 1), VNum (Int 1)); (VNum (Int 2), VNum (Int 2));
                 (VStr "1", VNum (Int 3)); (VNum NaN, VNum (Int 4))]
             [] (VNum (Int 0)) (VNum (Int 5)) (VNum NegZero)).
    + reflexivity.
    + intros k' v' [E | [E | [E | [E | []]]]]; injection E as <- <-; reflexivity.
  - intros r c' s'. apply Hmiss.
    intros k' v' [E | [E | [E | [E | [E | []]]]]]; injection E as <- <-; reflexivity.
Defined.

(** Three calls with [5] and one with [6] call the counting function
    twice. *)
Example memoize_counting :
  exists c s,
    run_calls (memoize (counting 0))
      [[VNum (Int 5)]; [VNum (Int 5)]; [VNum (Int 5)]; [VNum (Int 6)]]
      ([], start 0%nat) =
    ([Normal (VNum (Int 1)); Normal (VNum (Int 1)); Normal (VNum (Int 1));
      Normal (VNum (Int 2))], (c, s))
    /\ world s = 2%nat.
Proof. eexists _, _. split; reflexivity. Qed.

(** ** getIdGeneratorFunction *)

Lemma generator_counts_from_start_witness :
  exists results h2,
    run_ops [Create (VNum (Int 10)); Next 0; Next 1; Next 0; Next 0; Next 0; Next 1]
      (snd (getIdGeneratorFunction (VNum (Int 4)) ∅)) = Some (results, h2)
    /\ returned_by 0 results =
         [VNum (Int 4); VNum (Int 5); VNum (Int 6); VNum (Int 7)]
    /\ returned_by 1 results = [VNum (Int 10); VNum (Int 11)]
    /\ (forall n v,
          returned_by 0 results !! n = Some v ->
          v = VNum (num_add (Int 4) (counter n)))
    /\ (forall (n : nat) v,
          Z.of_nat n < 2 ^ 53 ->
          safe_integer (4 + Z.of_nat n) ->
          returned_by 0 results !! n = Some v ->
          v = VNum (Int (4 + Z.of_nat n))).
Proof.
  pose proof (generator_counts_from_start (Int 4) ∅
    [Create (VNum (Int 10)); Next 0; Next 1; Next 0; Next 0; Next 0; Next 1])
    as Hgen.
  cbv zeta in Hgen. destruct Hgen as (_ & _ & Hruns & Hcalls).
  destruct Hruns as [[results h2] Hrun]; [vm_compute; reflexivity |].
  destruct (Hcalls results h2 Hrun) as (_ & _ & Hvalues & Hintegers & _).
  exists results, h2. split; [exact Hrun |].
  pose proof Hrun as E. vm_compute in E. injection E as <- <-.
  split; [reflexivity |]. split; [reflexivity |]. split; [exact Hvalues |].
  intros n v Hn Hsafe. apply (Hintegers 4 n v eq_refl); try assumption.
  unfold safe_integer. reflexivity.
Defined.

(** C7 as it is stated does not hold of every number.  Started from 2^53,
    the generator returns 2^53, 2^53 again, and 2^53 + 2.  The second
    value is the first and not the number after it; the third is the
    second plus two, whereas the sum of the second and one is 2^53 with
    the sum of the doubles. *)
Lemma generator_beyond_safe_integers :
  exists results h2,
    run_ops [Next 0; Next 0; Next 0]
      (snd (getIdGeneratorFunction (VNum (Int 9007199254740992)) ∅))
    = Some (results, h2)
    /\ returned_by 0 results =
         [VNum (Int 9007199254740992); VNum (Int 9007199254740992);
          VNum (Int 9007199254740994)]
    /\ num_add (Int 9007199254740992) (Int 1) = Int 9007199254740992
    /\ ~ counts_by_one (returned_by 0 results).
Proof.
  eexists _, _. split; [vm_compute; reflexivity |].
  split; [reflexivity |].
  split.
  - reflexivity.
  - intros Hcounts. specialize (Hcounts 1%nat _ _ eq_refl eq_refl).
    apply (f_equal (fun v => match v with
                             | VNum n => Prim2SF n
                             | _ => S754_nan
                             end)) in Hcounts.
    vm_compute in Hcounts. discriminate.
Qed.

(** ** Further properties *)

Lemma getComposition_calls_g_then_f_witness :
  fn_body inc [VNum (Int 1)] [] = (Normal (VNum (Int 2)), [])
  /\ getComposition (invoke inc) (invoke inc) [VNum (Int 1); VStr "unused"] (start []) =
       (Normal (VNum (Int 3)),
        {| world := [];
           trace := [mkCall (fn_ref inc) [VNum (Int 1)] (Normal (VNum (Int 2)));
                     mkCall (fn_ref inc) [VNum (Int 2)] (Normal (VNum (Int 3)))] |}).
Proof.
  split; [reflexivity |].
  apply (getComposition_calls_g_then_f inc inc (VNum (Int 1)) (VNum (Int 2))
           [VStr "unused"] (start []) []).
  reflexivity.
Defined.

Lemma getComposition_inner_failure_witness :
  fn_body always_fails [VNum (Int 1)] tt = (Throw test_error, tt)
  /\ getComposition (invoke always_two) (invoke always_fails) [VNum (Int 1)] (start tt) =
       (Throw test_error,
        {| world := tt;
           trace := [mkCall (fn_ref always_fails) [VNum (Int 1)] (Throw test_error)] |}).
Proof.
  split; [reflexivity |].
  apply (getComposition_inner_failure always_two always_fails (VNum (Int 1))
           test_error [] (start tt) tt).
  reflexivity.
Defined.

Lemma memoize_cache_size_witness :
  exists rs c s new,
    run_reentrant 1 (reentrant_of (counting 1))
      [[VNum (Int 5)]; [VNum NegZero]; [VNum (Int 5)]; [VNum (Int 0)]]
      ([], start 0%nat) = Some (rs, (c, s))
    /\ trace s = new
    /\ c = [] ++ stored new
    /\ c = [(VNum (Int 0), VNum (Int 2)); (VNum (Int 5), VNum (Int 3))].
Proof.
  destruct (memoize_cache_size (counting 1) 0
              [[VNum (Int 5)]; [VNum NegZero]; [VNum (Int 5)]; [VNum (Int 0)]]
              [] (start 0%nat)) as (rs & c & s & new & Hrun & Htrace & Hcache & _).
  exists rs, c, s, new. split; [exact Hrun |]. split; [exact Htrace |].
  split; [exact Hcache |].
  cbn in Hrun. injection Hrun as _ <- _. reflexivity.
Defined.

Lemma memoize_repeated_calls_witness :
  map_has [] (array_get [] 0) = false
  /\ fn_body (counting 0) [VUndefined] 0%nat = (Normal (VNum (Int 1)), 1%nat)
  /\ run_reentrant 1 (reentrant_of (counting 0)) [[]; []; []] ([], start 0%nat) =
       Some ([Normal (VNum (Int 1)); Normal (VNum (Int 1)); Normal (VNum (Int 1))],
             ([(VUndefined, VNum (Int 1))],
              after_call (counting 0) (start 0%nat) [VUndefined]
                (Normal (VNum (Int 1))) 1%nat)).
Proof.
  split; [reflexivity |]. split; [reflexivity |].
  apply (memoize_repeated_calls (counting 0) 0 [] 2 [] (start 0%nat)
           (VNum (Int 1)) 1%nat); reflexivity.
Defined.

Lemma memoize_transparent_witness :
  fst (run_calls (memoize kind)
         [[VNum (Int 0)]; [VNum NegZero]; [VStr "a"]; []; [VNum (Int 0)]]
         (initial (memoize kind), start tt)) =
  [Normal (VStr "number"); Normal (VStr "number"); Normal (VStr "string");
   Normal (VStr "undefined"); Normal (VStr "number")].
Proof.
  apply (memoize_transparent kind (fun args => VStr (typeof (array_get args 0)))).
  - intros args w. reflexivity.
  - intros a b E. destruct a, b; try discriminate E; reflexivity.
Defined.

Lemma retry_first_call_returns_witness :
  fn_body always_two [] tt = (Normal (VNum (Int 2)), tt)
  /\ retry always_two (VNum (Int 5)) (start tt) =
       (Normal (VFun (fn_ref always_two)),
        after_call always_two (start tt) [] (Normal (VNum (Int 2))) tt).
Proof.
  split; [reflexivity |].
  apply (retry_first_call_returns always_two (VNum (Int 5)) (VNum (Int 2))
           (start tt) tt).
  reflexivity.
Defined.

Lemma retry_zero_attempts_witness :
  fn_body always_fails [] tt = (Throw test_error, tt)
  /\ strict_eq (VNum (Int 0)) (VNum NegZero) = true
  /\ retry always_fails (VNum NegZero) (start tt) =
       (Normal (VNum NegZero),
        after_call always_fails (start tt) [] (Throw test_error) tt).
Proof.
  split; [reflexivity |]. split; [reflexivity |].
  apply (retry_zero_attempts always_fails (VNum NegZero) test_error (start tt) tt);
    reflexivity.
Defined.

Lemma retry_other_attempts_witness :
  fn_body odd_fails [] 0 = (Throw test_error, 1)
  /\ strict_eq (VNum (Int 0)) (VNum (Int 2)) = false
  /\ retry odd_fails (VNum (Int 2)) (start 0) =
       (Normal (VFun (fn_ref odd_fails)),
        after_call odd_fails (after_call odd_fails (start 0) [] (Throw test_error) 1)
          [] (Normal (VNum (Int 2))) 2).
Proof.
  split; [reflexivity |]. split; [reflexivity |].
  apply (retry_other_attempts odd_fails (VNum (Int 2)) test_error (start 0) 1);
    reflexivity.
Defined.

Lemma logger_one_argument_witness :
  fn_body sink [VStr "inc(a) starts"] [] = (Normal VUndefined, ["inc(a) starts"])
  /\ fn_body sink [VStr "inc(a) ends"] ["inc(a) starts"] =
       (Normal VUndefined, ["inc(a) starts"; "inc(a) ends"])
  /\ logger inc sink [VStr "a"] (start []) =
       (Normal (VStr "a1"),
        {| world := ["inc(a) starts"; "inc(a) ends"];
           trace := [mkCall (fn_ref sink) [VStr "inc(a) starts"] (Normal VUndefined);
                     mkCall (fn_ref sink) [VStr "inc(a) ends"] (Normal VUndefined);
                     mkCall (fn_ref inc) [VStr "a"] (Normal (VStr "a1"))] |}).
Proof.
  split; [reflexivity |]. split; [reflexivity |].
  apply (logger_one_argument inc sink (VStr "a") (start [])
           ["inc(a) starts"] ["inc(a) starts"; "inc(a) ends"]
           VUndefined VUndefined); reflexivity.
Defined.


Lemma logger_failure_not_logged_witness :
  exists starts,
    logger failing sink [VArr 9 []; VNum (Int 1)] (start []) =
    (Throw test_error,
     {| world := [starts];
        trace := [mkCall (fn_ref sink) [VStr starts] (Normal VUndefined);
                  mkCall (fn_ref failing) [VArr 9 []; VNum (Int 1)]
                    (Throw test_error)] |})
    /\ starts = "failing([],1) starts".
Proof.
  eexists. split; [| reflexivity].
  etransitivity.
  - eapply (logger_failure_not_logged failing sink 9 [] [] (VNum (Int 1))
              test_error (start [])); vm_compute; reflexivity.
  - vm_compute. reflexivity.
Defined.

Lemma logger_sink_failure_witness :
  logger always_two always_fails [VNum (Int 1)] (start tt) =
    (Throw test_error,
     after_call always_fails (start tt) [VStr "(1) starts"] (Throw test_error) tt)
  /\ logger always_two always_fails [VArr 9 []; VNum (Int 1)] (start tt) =
      (Throw test_error,
       after_call always_fails (start tt) [VStr "([],1) starts"] (Throw test_error) tt).
Proof.
  destruct (logger_sink_failure always_two always_fails (VNum (Int 1)) test_error
              9 [] [] (VNum (Int 1)) (start tt) tt) as [Hone Harray].
  split; [apply Hone | apply Harray]; reflexivity.
Defined.

Lemma partialUsingArguments_nullish_witness :
  is_nullish VNull = true
  /\ partialUsingArguments sum2 [VStr "a"; VNull; VStr "b"] [VUndefined; VStr "c"]
       (start tt) = (Normal (VStr "abc"), start tt).
Proof.
  split; [reflexivity |].
  etransitivity.
  - exact (proj1 (partialUsingArguments_nullish sum2 VNull [VStr "a"] [VStr "b"]
                    [VUndefined; VStr "c"] (start tt) eq_refl)).
  - reflexivity.
Defined.

Lemma generator_any_start_witness :
  exists results h2,
    run_ops [Next 0; Create (VNum (Int 1)); Next 0; Next 1; Next 0]
      (snd (getIdGeneratorFunction (VStr "id") ∅)) = Some (results, h2)
    /\ returned_by 0 results = [VStr "id0"; VStr "id1"; VStr "id2"]
    /\ forall n v,
         returned_by 0 results !! n = Some v ->
         v = js_add (VStr "id") (VNum (counter n))
         /\ forall p, VStr "id" = VStr p ->
                      v = VStr (p ++ number_to_string (counter n))%string.
Proof.
  pose proof (generator_any_start (VStr "id") ∅
                [Next 0; Create (VNum (Int 1)); Next 0; Next 1; Next 0]) as Hgen.
  cbv zeta in Hgen.
  destruct Hgen as (results & h2 & Hrun & _ & Hvalues).
  - vm_compute. reflexivity.
  - exists results, h2. split; [exact Hrun |]. split; [| exact Hvalues].
    vm_compute in Hrun. injection Hrun as <- _. reflexivity.
Defined.

Lemma generator_strictly_increasing_witness :
  exists results h2,
    run_ops [Next 0; Create (VNum (Int 1)); Next 0; Next 1; Next 0]
      (snd (getIdGeneratorFunction (VNum (Int (-1))) ∅)) = Some (results, h2)
    /\ returned_by 0 results = [VNum (Int (-1)); VNum (Int 0); VNum (Int 1)]
    /\ forall i j vi vj,
         (i < j)%nat ->
         returned_by 0 results !! i = Some vi ->
         returned_by 0 results !! j = Some vj ->
         vi <> vj
         /\ exists a b, vi = VNum (Int a) /\ vj = VNum (Int b) /\ a < b
                        /\ safe_integer a /\ safe_integer b.
Proof.
  pose proof (generator_strictly_increasing (-1) ∅
                [Next 0; Create (VNum (Int 1)); Next 0; Next 1; Next 0]) as Hgen.
  cbv zeta in Hgen.
  destruct Hgen as (results & h2 & Hrun & Hvalues).
  - unfold safe_integer. reflexivity.
  - reflexivity.
  - unfold safe_integer. reflexivity.
  - vm_compute. reflexivity.
  - exists results, h2. split; [exact Hrun |]. split; [| exact Hvalues].
    vm_compute in Hrun. injection Hrun as <- _. reflexivity.
Defined.
